(** * mandelbrot.c: a StarPU Mandelbrot chart, embedded and verified

    The development embeds [src/mandelbrot.c]:
    - [double] is IEEE binary64, carried by Rocq's primitive [float]; every
      arithmetic operator is evaluated on its own, rounded to nearest (no
      fused multiply-add);
    - [int] is carried by [Z]; the loop counters and the indices computed
      from them lie in [0, ROWS * COLS], so no wrap-around is involved;
    - arrays are lists, read and written through [load] and [store], which
      fail (undefined behaviour) outside the bounds of the array;
    - [stdout] is the sequence of characters printed so far;
    - libm's [cabs] and the StarPU runtime are not part of the program: the
      first is a parameter of the development, the second is modelled by the
      part of its interface the program uses, a call that breaks the
      contract of that interface being undefined. *)

From Stdlib Require Import ZArith Lia List Ascii String Floats Uint63.
From Stdlib.Strings Require Import Byte.
From stdpp Require Import base option list.
Import ListNotations.

Local Open Scope Z_scope.

(** ** Undefined behaviour and memory *)

(** A computation that may run into undefined behaviour: [None] stands for an
    access outside the bounds of an array, or for the use of an object that
    was never given a value. *)
Definition ub (A : Type) : Type := option A.

(** [array[k]] *)
Definition load {A : Type} (array : list A) (k : Z) : ub A :=
  if (0 <=? k) && (k <? Z.of_nat (length array))
  then array !! Z.to_nat k
  else None.

(** [array[k] = v] *)
Definition store {A : Type} (array : list A) (k : Z) (v : A) : ub (list A) :=
  if (0 <=? k) && (k <? Z.of_nat (length array))
  then Some (<[Z.to_nat k := v]> array)
  else None.

(** ** Loops *)

(** [n] turns of a counting loop whose counter stands at [i]. *)
Fixpoint for_up {S : Type} (n : nat) (i : Z) (body : Z -> S -> S) (s : S) : S :=
  match n with
  | O => s
  | Datatypes.S n' => for_up n' (i + 1) body (body i s)
  end.

(** [for (int i = lo; i < hi; i++) body] on a state [s]. *)
Definition for_loop {S : Type} (lo hi : Z) (body : Z -> S -> S) (s : S) : S :=
  for_up (Z.to_nat (hi - lo)) lo body s.

(** The same loop with a body that may fail; the loop stops at the first
    failure. *)
Fixpoint for_up_ub {S : Type} (n : nat) (i : Z) (body : Z -> S -> ub S) (s : S)
  : ub S :=
  match n with
  | O => Some s
  | Datatypes.S n' =>
      match body i s with
      | Some s' => for_up_ub n' (i + 1) body s'
      | None => None
      end
  end.

Definition for_loop_ub {S : Type} (lo hi : Z) (body : Z -> S -> ub S) (s : S)
  : ub S :=
  for_up_ub (Z.to_nat (hi - lo)) lo body s.

(** ** [double] and [double complex] *)

(** Conversion of an [int] to [double]; exact on the whole range of [int]. *)
Definition double_of_int (n : Z) : float :=
  if n <? 0
  then PrimFloat.opp (PrimFloat.of_uint63 (Uint63.of_Z (- n)))
  else PrimFloat.of_uint63 (Uint63.of_Z n).

Record complex : Type := Complex { creal : float; cimag : float }.

(** [z + w] on two complex operands. *)
Definition Cadd (z w : complex) : complex :=
  Complex (creal z + creal w)%float (cimag z + cimag w)%float.

(** [z * w] on two complex operands, by the usual formula. When both parts of
    the product come out as NaN a C implementation may recompute it to
    recover an infinity (C11, G.5.1); that is left out here. *)
Definition Cmul (z w : complex) : complex :=
  Complex (creal z * creal w - cimag z * cimag w)%float
          (creal z * cimag w + cimag z * creal w)%float.

(** [x * w] and [x + w] for a real [x] and a complex [w]: the real operand is
    not converted to a complex one (C11, 6.3.1.8 and G.5). *)
Definition RCmul (x : float) (w : complex) : complex :=
  Complex (x * creal w)%float (x * cimag w)%float.

Definition RCadd (x : float) (w : complex) : complex :=
  Complex (x + creal w)%float (cimag w).

(** The macro [I] of <complex.h>, the imaginary unit. (From here on the
    name no longer refers to the proof of [True].) *)
Definition I : complex := Complex 0%float 1%float.

(** The conversion of the [int] constant [0] to [double complex]. *)
Definition czero : complex := Complex 0%float 0%float.

(** ** Constants of the program *)

Definition ROWS : Z := 63.
Definition COLS : Z := 100.
Definition ITER : Z := 2000.

(** ** [fill_array] *)

Definition real_start : float := (-2)%float.
Definition real_end : float := 0.5%float.
Definition imag_start : float := (-1.5)%float.
Definition imag_end : float := 1.5%float.

Definition real_step : float :=
  ((real_end - real_start) / double_of_int (COLS - 1))%float.
Definition imag_step : float :=
  ((imag_end - imag_start) / double_of_int (ROWS - 1))%float.

Definition fill_array (array : list complex) : ub (list complex) :=
  for_loop_ub 0 ROWS (fun i array =>
    for_loop_ub 0 COLS (fun j array =>
      let real_part := (real_start + double_of_int j * real_step)%float in
      let imag_part := (imag_start + double_of_int i * imag_step)%float in
      store array (i * COLS + j) (RCadd real_part (RCmul imag_part I)))
    array)
  array.

(** The value the inner statement of [fill_array] stores for [(i, j)]. *)
Definition stored_cell (i j : Z) : complex :=
  let real_part := (real_start + double_of_int j * real_step)%float in
  let imag_part := (imag_start + double_of_int i * imag_step)%float in
  RCadd real_part (RCmul imag_part I).

(** ** [print_chart] *)

(** [printf(s)] for a format [s] without conversions. *)
Definition printf (s : string) (stdout : list ascii) : list ascii :=
  stdout ++ list_ascii_of_string s.

(** The string ["\n"]. *)
Definition newline : string := String (ascii_of_nat 10) EmptyString.

Definition print_chart (array : list Z) (stdout : list ascii)
  : ub (list ascii) :=
  for_loop_ub 0 ROWS (fun i stdout =>
    stdout ← for_loop_ub 0 COLS (fun j stdout =>
      value ← load array (i * COLS + j);
      if negb (value =? 0)
      then Some (printf "." stdout)
      else Some (printf " " stdout))
    stdout;
    Some (printf newline stdout))
  stdout.

(** ** Object representation

    Values travel from [main] to the kernel as bytes: [starpu_task_insert]
    copies [sizeof] bytes from the address it is given, and
    [starpu_codelet_unpack_args] copies them back. The layout is the one of
    the little-endian LP64 targets StarPU runs on: a 4-byte two's complement
    [int], an 8-byte binary64 [double], and a [double complex] laid out as
    its real part followed by its imaginary part. *)

Definition sizeof_int : nat := 4.
Definition sizeof_double_complex : nat := 16.

Definition byte_of_Z (x : Z) : byte :=
  match Byte.of_N (Z.to_N (x mod 256)) with
  | Some b => b
  | None => x00
  end.

Definition Z_of_byte (b : byte) : Z := Z.of_N (Byte.to_N b).

(** The [n] low bytes of [x], least significant first. *)
Fixpoint le_bytes (n : nat) (x : Z) : list byte :=
  match n with
  | O => []
  | Datatypes.S n' => byte_of_Z x :: le_bytes n' (x / 256)
  end.

(** The unsigned number a little-endian byte string spells. *)
Fixpoint le_value (bs : list byte) : Z :=
  match bs with
  | [] => 0
  | b :: bs' => Z_of_byte b + 256 * le_value bs'
  end.

Definition bytes_of_int (i : Z) : list byte := le_bytes sizeof_int i.

Definition int_of_bytes (bs : list byte) : Z :=
  let u := le_value (take sizeof_int bs) in
  if u <? 2 ^ 31 then u else u - 2 ^ 32.

(** The binary64 encoding of a [double] (NaN is given its quiet encoding with
    an empty payload). *)
Definition bits_of_double (x : float) : Z :=
  let sign (s : bool) := if s then 2 ^ 63 else 0 in
  match Prim2SF x with
  | S754_zero s => sign s
  | S754_infinity s => sign s + 2047 * 2 ^ 52
  | S754_nan => 2047 * 2 ^ 52 + 2 ^ 51
  | S754_finite s m e =>
      if Z.pos m <? 2 ^ 52
      then sign s + Z.pos m
      else sign s + (e + 1075) * 2 ^ 52 + (Z.pos m - 2 ^ 52)
  end.

Definition double_of_bits (b : Z) : float :=
  let s := Z.testbit b 63 in
  let e := Z.land (Z.shiftr b 52) 2047 in
  let m := Z.land b (2 ^ 52 - 1) in
  SF2Prim
    (if e =? 0 then
       if m =? 0 then S754_zero s else S754_finite s (Z.to_pos m) (-1074)
     else if e =? 2047 then
       if m =? 0 then S754_infinity s else S754_nan
     else S754_finite s (Z.to_pos (m + 2 ^ 52)) (e - 1075)).

Definition bytes_of_double (x : float) : list byte :=
  le_bytes 8 (bits_of_double x).

Definition double_of_bytes (bs : list byte) : float :=
  double_of_bits (le_value (take 8 bs)).

Definition bytes_of_complex (c : complex) : list byte :=
  bytes_of_double (creal c) ++ bytes_of_double (cimag c).

Definition complex_of_bytes (bs : list byte) : complex :=
  Complex (double_of_bytes bs) (double_of_bytes (drop 8 bs)).

(** ** The StarPU interface the program uses *)

Inductive starpu_data_access_mode : Type :=
  | STARPU_NONE
  | STARPU_R
  | STARPU_W
  | STARPU_RW.

(** A data handle names a piece of registered data; the program registers
    one vector only. *)
Definition starpu_data_handle_t : Type := nat.

(** The [cl_arg] of a task: its [STARPU_VALUE] arguments, packed in the order
    [starpu_task_insert] received them. *)
Definition cl_arg_t : Type := list (list byte).

(** A kernel acts on the [int] vector behind [buffers[0]]. *)
Definition kernel : Type := list Z -> cl_arg_t -> ub (list Z).

Record starpu_codelet : Type := {
  cpu_funcs : list kernel;
  nbuffers : Z;
  modes : list starpu_data_access_mode;
}.

Record starpu_task : Type := {
  task_cl : starpu_codelet;
  task_handles : list (starpu_data_access_mode * starpu_data_handle_t);
  task_cl_arg : cl_arg_t;
}.

(** [starpu_task_insert(cl, mode, handle, STARPU_VALUE, p1, s1, ..., 0)]:
    the task is built from the codelet, the handle with its access mode and
    the packed values, and queued behind the tasks submitted before. The
    call does not wait for the task to run. *)
Definition starpu_task_insert (cl : starpu_codelet)
    (mode : starpu_data_access_mode) (handle : starpu_data_handle_t)
    (values : list (list byte)) (queue : list starpu_task) : list starpu_task :=
  queue ++ [ {| task_cl := cl;
                task_handles := [(mode, handle)];
                task_cl_arg := values |} ].

(** [starpu_codelet_unpack_args(cl_arg, p1, ..., pn)]. [cl_arg] is passed by
    value, so every call starts at the first packed argument. For each
    packed argument in turn the function takes the next pointer of its
    variable argument list, stops if that pointer is null, and otherwise
    copies the packed argument, whole, to where the pointer points.

    [pointers] is the argument list as the caller wrote it: [Some size] for
    a pointer to an object of [size] bytes, [None] for a null pointer. The
    call is undefined when it takes a pointer that was not passed (there are
    packed arguments left and the list has come to its end without a null
    pointer), and when it copies a packed argument longer than the object it
    is copied to. Otherwise the result lists, for the objects written, the
    bytes copied to the start of each. *)
Fixpoint starpu_codelet_unpack_args (cl_arg : cl_arg_t)
    (pointers : list (option nat)) : ub (list (list byte)) :=
  match cl_arg with
  | [] => Some []
  | packed :: cl_arg' =>
      match pointers with
      | [] => None
      | None :: _ => Some []
      | Some size :: pointers' =>
          if Nat.leb (length packed) size
          then rest ← starpu_codelet_unpack_args cl_arg' pointers';
               Some (packed :: rest)
          else None
      end
  end.

(** The bytes of a local object of [size] bytes that was declared without a
    value and then had [bytes] copied to its start: they are all defined
    only if the copy covered the object. *)
Definition object_bytes (size : nat) (bytes : list byte) : ub (list byte) :=
  if Nat.eqb (length bytes) size then Some bytes else None.

(** ** [is_stable], [cpu_func], [cl] and [main] *)

Section Program.

(** [cabs] of <complex.h>. *)
Variable cabs : complex -> float.

Definition is_stable (c : complex) (iter : Z) : Z :=
  let z := czero in
  let z := for_loop 0 iter (fun _ z => Cadd (Cmul z z) c) z in
  if PrimFloat.leb (cabs z) 2%float then 1 else 0.

(** The statements of [cpu_func] that follow the two calls of
    [starpu_codelet_unpack_args], for the values [c] and [i] that the locals
    hold then; [val] is the array behind [buffers[0]]. *)
Definition cpu_func_store (val : list Z) (c : complex) (i : Z) : ub (list Z) :=
  let r := is_stable c ITER in
  store val i (is_stable c ITER).

(** [cpu_func]: the two calls, each with the one pointer it passes, then the
    store. A local that no call has written is used without a value. *)
Definition cpu_func (val : list Z) (cl_arg : cl_arg_t) : ub (list Z) :=
  c ← starpu_codelet_unpack_args cl_arg [Some sizeof_double_complex];
  i ← starpu_codelet_unpack_args cl_arg [Some sizeof_int];
  c ← c !! 0%nat ≫= object_bytes sizeof_double_complex;
  i ← i !! 0%nat ≫= object_bytes sizeof_int;
  cpu_func_store val (complex_of_bytes c) (int_of_bytes i).

Definition cl : starpu_codelet := {|
  cpu_funcs := [cpu_func];
  nbuffers := 1;
  modes := [STARPU_R];
|}.

(** The submission loop of [main]. *)
Definition submit_all (matrix : list complex) (matrix_handle : starpu_data_handle_t)
  : ub (list starpu_task) :=
  for_loop_ub 0 (ROWS * COLS) (fun i queue =>
    c ← load matrix i;
    Some (starpu_task_insert cl STARPU_R matrix_handle
            [bytes_of_complex c; bytes_of_int i] queue))
  [].

(** What a process leaves behind. *)
Record process : Type := {
  stdout : list ascii;
  stderr : list string;
  status : Z;
}.

(** [perror(s)] adds a report headed by [s] to [stderr]. *)
Definition perror (s : string) (stderr : list string) : list string :=
  stderr ++ [s].

(** The runtime between [starpu_init] and [starpu_shutdown]: given the tasks
    submitted and the registered vector, what the vector holds when
    [starpu_task_wait_for_all] has returned and the vector is unregistered;
    [None] when the execution of the tasks is undefined. *)
Variable task_runtime : list starpu_task -> list Z -> ub (list Z).

(** [main]. The two calls of [malloc] return [None] for [NULL], or the
    block they allocated with whatever it holds. *)
Definition main (malloc_matrix : option (list complex))
    (malloc_mask : option (list Z)) : ub process :=
  match malloc_matrix with
  | None => Some {| stdout := []; stderr := perror "malloc" []; status := 1 |}
  | Some matrix =>
      match malloc_mask with
      | None => Some {| stdout := []; stderr := perror "malloc" []; status := 1 |}
      | Some mask =>
          matrix ← fill_array matrix;
          (* starpu_init; starpu_vector_data_register *)
          let matrix_handle := 0%nat in
          queue ← submit_all matrix matrix_handle;
          (* starpu_task_wait_for_all; starpu_data_unregister;
             starpu_shutdown *)
          mask ← task_runtime queue mask;
          out ← print_chart mask [];
          Some {| stdout := out; stderr := []; status := 0 |}
      end
  end.

End Program.

(** ** A sequential runtime

    One way for a runtime to meet its contract: every task runs once, in the
    order of submission, through the first CPU implementation of its
    codelet. *)

Definition execute_task (t : starpu_task) (val : list Z) : ub (list Z) :=
  match cpu_funcs (task_cl t) with
  | f :: _ => f val (task_cl_arg t)
  | [] => None
  end.

Fixpoint run_in_order (queue : list starpu_task) (val : list Z) : ub (list Z) :=
  match queue with
  | [] => Some val
  | t :: queue' =>
      match execute_task t val with
      | Some val' => run_in_order queue' val'
      | None => None
      end
  end.

(** A sample [cabs], by the textbook formula. *)
Definition cabs_sqrt (z : complex) : float :=
  PrimFloat.sqrt (creal z * creal z + cimag z * cimag z)%float.


(** ** What the specification says, in its own words *)

(** The recurrence of the predicate: one application of [z ← z² + c]. *)
Definition recurrence (c z : complex) : complex := Cadd (Cmul z z) c.

(** The value of cell [(row, col)] of the grid. *)
Definition grid_point (row col : Z) : complex :=
  Complex (real_start + double_of_int col * real_step)%float
          (imag_start + double_of_int row * imag_step)%float.

(** The grid, row-major. *)
Definition grid : list complex :=
  (fun k => grid_point (k / COLS) (k mod COLS)) <$> seqZ 0 (ROWS * COLS).

(** The glyph of a cell: a dot when stable (non-zero), a blank otherwise. *)
Definition glyph (value : Z) : ascii :=
  if bool_decide (value <> 0) then "."%char else " "%char.

(** The cell [(row, col)] of a result buffer. *)
Definition cell (array : list Z) (row col : Z) : Z :=
  default 0 (array !! Z.to_nat (row * COLS + col)).

Definition chart_line (array : list Z) (row : Z) : list ascii :=
  (fun col => glyph (cell array row col)) <$> seqZ 0 COLS.

Definition chart_lines (array : list Z) : list (list ascii) :=
  chart_line array <$> seqZ 0 ROWS.

(** Lines put on a stream, each followed by its terminator. *)
Definition unlines (lines : list (list ascii)) : list ascii :=
  concat ((fun line => line ++ list_ascii_of_string newline) <$> lines).

(** A task descriptor: the codelet, the buffer dependency with its access
    mode, the cell input and the destination index. *)
Definition descriptor (cl : starpu_codelet) (mode : starpu_data_access_mode)
    (handle : starpu_data_handle_t) (c : complex) (i : Z) : starpu_task :=
  {| task_cl := cl;
     task_handles := [(mode, handle)];
     task_cl_arg := [bytes_of_complex c; bytes_of_int i] |}.

(** The destination index a task descriptor names: its second immediate
    argument, read as an [int]. *)
Definition named_index (t : starpu_task) : option Z :=
  int_of_bytes <$> task_cl_arg t !! 1%nat.

(** The cell input of grid index [i] in a filled grid. *)
Definition cell_input (matrix : list complex) (i : Z) : complex :=
  default czero (matrix !! Z.to_nat i).

(** The queue of descriptors of one run: one per grid index, in order. *)
Definition submitted (cabs : complex -> float) (matrix : list complex)
    (matrix_handle : starpu_data_handle_t) : list starpu_task :=
  (fun i => descriptor (cl cabs) STARPU_R matrix_handle (cell_input matrix i) i)
  <$> seqZ 0 (ROWS * COLS).

(** ** Invariants *)

(** The invariant of [fill_array]: the first [p] positions of [array] hold
    their cells. *)
Definition filled (n : nat) (p : Z) (array : list complex) : Prop :=
  length array = n /\
  forall k, 0 <= k < p ->
    array !! Z.to_nat k = Some (stored_cell (k / COLS) (k mod COLS)).

(** ** Definitions for the further properties *)

(** Whether a cell input lies in the rectangle of the plane that
    [fill_array] covers. *)
Definition in_rectangle (c : complex) : bool :=
  PrimFloat.leb real_start (creal c) && PrimFloat.leb (creal c) real_end &&
  PrimFloat.leb imag_start (cimag c) && PrimFloat.leb (cimag c) imag_end.

(** The binary64 word of a [double], and back, on the specification of
    floating-point numbers: [bits_of_double] and [double_of_bits] are these
    two functions, taken through [Prim2SF] and [SF2Prim]. *)
Definition sign_bit (s : bool) : Z := if s then 2 ^ 63 else 0.

Definition bits_of_spec (x : spec_float) : Z :=
  match x with
  | S754_zero s => sign_bit s
  | S754_infinity s => sign_bit s + 2047 * 2 ^ 52
  | S754_nan => 2047 * 2 ^ 52 + 2 ^ 51
  | S754_finite s m e =>
      if Z.pos m <? 2 ^ 52
      then sign_bit s + Z.pos m
      else sign_bit s + (e + 1075) * 2 ^ 52 + (Z.pos m - 2 ^ 52)
  end.

Definition spec_of_bits (b : Z) : spec_float :=
  let s := Z.testbit b 63 in
  let e := Z.land (Z.shiftr b 52) 2047 in
  let m := Z.land b (2 ^ 52 - 1) in
  if e =? 0 then
    if m =? 0 then S754_zero s else S754_finite s (Z.to_pos m) (-1074)
  else if e =? 2047 then
    if m =? 0 then S754_infinity s else S754_nan
  else S754_finite s (Z.to_pos (m + 2 ^ 52)) (e - 1075).

(** What [c] holds after a 16-byte copy of its own bytes to an [int] that
    lies directly below it in memory: the copy runs over the first 12 bytes
    of [c]. One outcome of the second call of [cpu_func], on one layout of
    its locals; C does not define any. *)
Definition clobbered (c : complex) : complex :=
  complex_of_bytes (drop 4 (bytes_of_complex c) ++ drop 12 (bytes_of_complex c)).

(** * Proofs *)

(** ** Loops *)

Lemma for_up_iter {S : Type} (f : S -> S) (n : nat) (i : Z) (s : S) :
  for_up n i (fun _ => f) s = Nat.iter n f s.
Proof.
  revert i s. induction n as [|n IH]; intros i s; [reflexivity|].
  cbn [for_up]. rewrite IH. symmetry. apply Nat.iter_succ_r.
Qed.

(** The invariant rule of the failing loop: a body that keeps the invariant
    and does not fail makes the whole loop succeed in a state where the
    invariant holds for the final counter. *)
Lemma for_up_ub_inv {S : Type} (P : Z -> S -> Prop) (body : Z -> S -> ub S) :
  forall (n : nat) (i : Z) (s : S),
    P i s ->
    (forall k s, i <= k < i + Z.of_nat n -> P k s ->
       exists s', body k s = Some s' /\ P (k + 1) s') ->
    exists s', for_up_ub n i body s = Some s' /\ P (i + Z.of_nat n) s'.
Proof.
  induction n as [|n IH]; intros i s Hs Hbody.
  - exists s. split; [reflexivity|]. by replace (i + Z.of_nat 0) with i by lia.
  - destruct (Hbody i s) as (s1 & Hs1 & HP1); [lia|done|].
    cbn [for_up_ub]. rewrite Hs1.
    destruct (IH (i + 1) s1 HP1) as (s2 & Hs2 & HP2).
    + intros k s' Hk. apply Hbody. lia.
    + exists s2. split; [done|].
      by replace (i + Z.of_nat (Datatypes.S n)) with (i + 1 + Z.of_nat n) by lia.
Qed.

Lemma for_loop_ub_inv {S : Type} (P : Z -> S -> Prop) (body : Z -> S -> ub S)
    (hi : Z) (s : S) :
  0 <= hi ->
  P 0 s ->
  (forall k s, 0 <= k < hi -> P k s ->
     exists s', body k s = Some s' /\ P (k + 1) s') ->
  exists s', for_loop_ub 0 hi body s = Some s' /\ P hi s'.
Proof.
  intros Hhi Hs Hbody. unfold for_loop_ub.
  destruct (for_up_ub_inv P body (Z.to_nat (hi - 0)) 0 s Hs) as (s' & H1 & H2).
  - intros k s0 Hk. apply Hbody. lia.
  - exists s'. split; [done|].
    by replace (0 + Z.of_nat (Z.to_nat (hi - 0))) with hi in H2 by lia.
Qed.

(** What a loop that has succeeded tells: a property of the counter that
    every successful turn carries one step further holds at the end. *)
Lemma for_up_ub_Some {S : Type} (P : Z -> Prop) (body : Z -> S -> ub S) :
  forall (n : nat) (i : Z) (s s' : S),
    P i ->
    (forall k s s', i <= k < i + Z.of_nat n -> P k -> body k s = Some s' -> P (k + 1)) ->
    for_up_ub n i body s = Some s' ->
    P (i + Z.of_nat n).
Proof.
  induction n as [|n IH]; intros i s s' Hi Hbody Hrun.
  - by replace (i + Z.of_nat 0) with i by lia.
  - cbn [for_up_ub] in Hrun. destruct (body i s) as [s1|] eqn:Hs1; [|done].
    replace (i + Z.of_nat (Datatypes.S n)) with (i + 1 + Z.of_nat n) by lia.
    apply (IH (i + 1) s1 s'); [|intros k s2 s3 Hk; apply Hbody; lia|done].
    apply (Hbody i s s1); [lia|done|done].
Qed.

Lemma for_loop_ub_Some {S : Type} (P : Z -> Prop) (body : Z -> S -> ub S)
    (hi : Z) (s s' : S) :
  0 <= hi ->
  P 0 ->
  (forall k s s', 0 <= k < hi -> P k -> body k s = Some s' -> P (k + 1)) ->
  for_loop_ub 0 hi body s = Some s' ->
  P hi.
Proof.
  intros Hhi H0 Hbody Hrun. unfold for_loop_ub in Hrun.
  replace hi with (0 + Z.of_nat (Z.to_nat (hi - 0))) by lia.
  apply (for_up_ub_Some P body _ 0 s s'); [done| |done].
  intros k s1 s2 Hk. apply Hbody. lia.
Qed.

(** ** The predicate *)

Section Predicate.

Variable cabs : complex -> float.

Lemma is_stable_unfold (c : complex) (iter : Z) :
  is_stable cabs c iter =
  if PrimFloat.leb (cabs (Nat.iter (Z.to_nat iter) (recurrence c) czero)) 2%float
  then 1 else 0.
Proof.
  unfold is_stable, for_loop. rewrite Z.sub_0_r.
  by rewrite (for_up_iter (recurrence c)).
Qed.

(** C4. For every complex [c] and every bound [k], [is_stable] starts from
    zero, applies [z ← z² + c] exactly [k] times (none for [k <= 0]), whatever
    the magnitudes met on the way, and answers 1 (stable) exactly when
    [cabs] of the final [z] is [<= 2.0], 0 otherwise; being a function of
    [(c, k)] it is deterministic. *)
Theorem is_stable_fixed_iteration (c : complex) (k : Z) :
  let z := Nat.iter (Z.to_nat k) (recurrence c) czero in
  (is_stable cabs c k = 1 <-> PrimFloat.leb (cabs z) 2%float = true) /\
  (is_stable cabs c k = 0 <-> PrimFloat.leb (cabs z) 2%float = false).
Proof.
  cbn zeta. rewrite is_stable_unfold.
  destruct (PrimFloat.leb _ _); split; split; intros; done.
Qed.

Lemma recurrence_origin : recurrence czero czero = czero.
Proof. reflexivity. Qed.

Lemma iter_recurrence_origin (n : nat) : Nat.iter n (recurrence czero) czero = czero.
Proof.
  induction n as [|n IH]; [reflexivity|].
  cbn [Nat.iter nat_rect]. fold (Nat.iter n (recurrence czero) czero).
  rewrite IH. apply recurrence_origin.
Qed.

End Predicate.

(** C8. At the origin the recurrence never leaves zero, so for every bound
    [k] (in particular every [k >= 0]) the predicate answers stable, as soon
    as [cabs] finds the magnitude of zero to be at most 2.0. *)
Theorem is_stable_origin (cabs : complex -> float) (k : Z) :
  PrimFloat.leb (cabs czero) 2%float = true ->
  is_stable cabs czero k = 1.
Proof.
  intros Hcabs. rewrite is_stable_unfold, iter_recurrence_origin.
  by rewrite Hcabs.
Qed.

Lemma is_stable_origin_witness : is_stable cabs_sqrt czero ITER = 1.
Proof.
  apply (is_stable_origin cabs_sqrt ITER). reflexivity.
Defined.

(** ** Memory *)

Lemma store_in_bounds {A : Type} (array : list A) (k : Z) (v : A) :
  0 <= k < Z.of_nat (length array) ->
  store array k v = Some (<[Z.to_nat k := v]> array).
Proof.
  intros Hk. unfold store.
  destruct (Z.leb_spec 0 k), (Z.ltb_spec k (Z.of_nat (length array))); (done || lia).
Qed.

Lemma store_out_of_bounds {A : Type} (array : list A) (k : Z) (v : A) :
  k < 0 \/ Z.of_nat (length array) <= k ->
  store array k v = None.
Proof.
  intros Hk. unfold store.
  destruct (Z.leb_spec 0 k), (Z.ltb_spec k (Z.of_nat (length array))); (done || lia).
Qed.

Lemma load_in_bounds {A : Type} (array : list A) (k : Z) :
  0 <= k < Z.of_nat (length array) ->
  load array k = array !! Z.to_nat k /\ is_Some (array !! Z.to_nat k).
Proof.
  intros Hk. unfold load.
  destruct (Z.leb_spec 0 k), (Z.ltb_spec k (Z.of_nat (length array))); try lia.
  split; [done|]. apply lookup_lt_is_Some. lia.
Qed.

Lemma load_Some {A : Type} (array : list A) (k : Z) (v : A) :
  load array k = Some v -> 0 <= k < Z.of_nat (length array).
Proof.
  unfold load.
  destruct (Z.leb_spec 0 k), (Z.ltb_spec k (Z.of_nat (length array))); (done || lia).
Qed.

(** ** The grid generator *)

(** Position [k] of a row-major array is cell [(k / COLS, k mod COLS)]. *)
Lemma row_major_div (i j : Z) :
  0 <= j < COLS -> (i * COLS + j) / COLS = i /\ (i * COLS + j) mod COLS = j.
Proof.
  unfold COLS. intros Hj.
  pose proof (Z.div_mod (i * 100 + j) 100).
  pose proof (Z.mod_pos_bound (i * 100 + j) 100). lia.
Qed.

Lemma filled_step (n : nat) (i j : Z) (array : list complex) :
  0 <= i -> 0 <= j < COLS -> i * COLS + j < Z.of_nat n ->
  filled n (i * COLS + j) array ->
  exists array',
    store array (i * COLS + j) (stored_cell i j) = Some array' /\
    filled n (i * COLS + (j + 1)) array'.
Proof.
  intros Hi Hj Hn [Hlen Hpre].
  assert (0 <= i * COLS + j) by (unfold COLS in *; lia).
  eexists. split; [apply store_in_bounds; lia|].
  split; [by rewrite length_insert|].
  intros k Hk. destruct (decide (k = i * COLS + j)) as [->|Hne].
  - rewrite list_lookup_insert_eq by lia.
    by destruct (row_major_div i j Hj) as [-> ->].
  - rewrite list_lookup_insert_ne by lia. apply Hpre. lia.
Qed.

Lemma filled_all (n : nat) (array : list complex) :
  filled n (Z.of_nat n) array ->
  array = (fun k => stored_cell (k / COLS) (k mod COLS)) <$> seqZ 0 (Z.of_nat n).
Proof.
  intros [Hlen Hpre]. apply list_eq. intros m.
  rewrite list_lookup_fmap. destruct (decide (m < n)%nat) as [Hm|Hm].
  - rewrite lookup_seqZ_lt, Z.add_0_l by lia.
    rewrite <- (Nat2Z.id m) at 1. by rewrite Hpre by lia.
  - rewrite lookup_seqZ_ge by lia. cbn. apply lookup_ge_None. lia.
Qed.

Lemma fill_array_stored (array : list complex) :
  length array = Z.to_nat (ROWS * COLS) ->
  fill_array array =
  Some ((fun k => stored_cell (k / COLS) (k mod COLS)) <$> seqZ 0 (ROWS * COLS)).
Proof.
  intros Hlen. set (n := Z.to_nat (ROWS * COLS)) in *.
  destruct (for_loop_ub_inv (fun i a => filled n (i * COLS) a)
    (fun i array => for_loop_ub 0 COLS (fun j array =>
       store array (i * COLS + j) (stored_cell i j)) array) ROWS array)
    as (array' & Hrun & Hfilled).
  - done.
  - split; [done|]. intros k Hk. unfold COLS in Hk. lia.
  - intros i a Hi Ha.
    destruct (for_loop_ub_inv (fun j a => filled n (i * COLS + j) a)
      (fun j array => store array (i * COLS + j) (stored_cell i j)) COLS a)
      as (a' & Hrow & Ha').
    + done.
    + by rewrite Z.add_0_r.
    + intros j a0 Hj Ha0. apply filled_step; [lia|done| |done].
      subst n. unfold ROWS, COLS in *. lia.
    + exists a'. split; [done|].
      by replace ((i + 1) * COLS) with (i * COLS + COLS) by lia.
  - change (fill_array array) with
      (for_loop_ub 0 ROWS (fun i array => for_loop_ub 0 COLS (fun j array =>
         store array (i * COLS + j) (stored_cell i j)) array) array).
    rewrite Hrun. f_equal.
    replace (ROWS * COLS) with (Z.of_nat n) in * by (subst n; unfold ROWS, COLS; lia).
    by apply filled_all.
Qed.

(** On this grid the real part of a stored cell is its [real_part] and the
    imaginary part its [imag_part]: adding [imag_part * 0.0] changes
    nothing. Checked on all the cells. *)
Lemma stored_cells_grid :
  (fun k => stored_cell (k / COLS) (k mod COLS)) <$> seqZ 0 (ROWS * COLS) = grid.
Proof. vm_compute. reflexivity. Qed.

Lemma grid_lookup (row col : Z) :
  0 <= row < ROWS -> 0 <= col < COLS ->
  grid !! Z.to_nat (row * COLS + col) = Some (grid_point row col).
Proof.
  intros Hrow Hcol. unfold grid. rewrite list_lookup_fmap.
  rewrite lookup_seqZ_lt by (unfold ROWS, COLS in *; lia).
  rewrite Z.add_0_l, Z2Nat.id by (unfold COLS in *; lia).
  destruct (row_major_div row col Hcol) as [Hdiv Hmod].
  cbn [fmap option_fmap option_map]. by rewrite Hdiv, Hmod.
Qed.

Lemma grid_length : length grid = Z.to_nat (ROWS * COLS).
Proof. unfold grid. by rewrite length_fmap, length_seqZ. Qed.

Lemma fill_array_grid (array : list complex) :
  length array = Z.to_nat (ROWS * COLS) -> fill_array array = Some grid.
Proof. intros Hlen. by rewrite fill_array_stored, stored_cells_grid. Qed.

(** C5. Given an array of [ROWS * COLS] elements, [fill_array] overwrites
    all of them and nothing else, so that the array is the grid in row-major
    order: position [row * COLS + col] holds
    [(real_start + col * real_step) + (imag_start + row * imag_step) i],
    with [real_step = (0.5 - (-2.0)) / (COLS - 1)] and
    [imag_step = (1.5 - (-1.5)) / (ROWS - 1)]. The result does not depend
    on what the array held, and two calls give the same array. *)
Theorem fill_array_row_major (array : list complex) :
  length array = Z.to_nat (ROWS * COLS) ->
  fill_array array = Some grid /\
  length grid = Z.to_nat (ROWS * COLS) /\
  (forall row col, 0 <= row < ROWS -> 0 <= col < COLS ->
     grid !! Z.to_nat (row * COLS + col) =
     Some (Complex (real_start + double_of_int col * real_step)%float
                   (imag_start + double_of_int row * imag_step)%float)) /\
  real_start = (-2)%float /\ imag_start = (-1.5)%float /\
  real_step = ((0.5 - (-2)) / double_of_int (COLS - 1))%float /\
  imag_step = ((1.5 - (-1.5)) / double_of_int (ROWS - 1))%float /\
  (forall array' : list complex,
     length array' = Z.to_nat (ROWS * COLS) -> fill_array array' = fill_array array).
Proof.
  intros Hlen. split_and!.
  - by apply fill_array_grid.
  - apply grid_length.
  - apply grid_lookup.
  - reflexivity.
  - reflexivity.
  - reflexivity.
  - reflexivity.
  - intros array' Hlen'. by rewrite !fill_array_stored.
Qed.

Lemma fill_array_row_major_witness :
  length (replicate (Z.to_nat (ROWS * COLS)) czero) = Z.to_nat (ROWS * COLS) /\
  fill_array (replicate (Z.to_nat (ROWS * COLS)) czero) = Some grid.
Proof.
  assert (Hlen : length (replicate (Z.to_nat (ROWS * COLS)) czero)
                 = Z.to_nat (ROWS * COLS)) by (vm_compute; reflexivity).
  split; [exact Hlen|].
  exact (proj1 (fill_array_row_major _ Hlen)).
Defined.

(** C9. In the array [fill_array] leaves, the corner cells are the
    endpoints of the ranges, exactly: cell [(0, 0)] is [-2.0 - 1.5 i], the
    real part of cell [(0, COLS - 1)] is [0.5], the imaginary part of cell
    [(ROWS - 1, 0)] is [1.5], and cell [(ROWS - 1, COLS - 1)] is
    [0.5 + 1.5 i]. *)
Theorem fill_array_corners (array : list complex) :
  length array = Z.to_nat (ROWS * COLS) ->
  exists array',
    fill_array array = Some array' /\
    array' !! Z.to_nat (0 * COLS + 0) = Some (Complex (-2)%float (-1.5)%float) /\
    creal <$> array' !! Z.to_nat (0 * COLS + (COLS - 1)) = Some 0.5%float /\
    cimag <$> array' !! Z.to_nat ((ROWS - 1) * COLS + 0) = Some 1.5%float /\
    array' !! Z.to_nat ((ROWS - 1) * COLS + (COLS - 1)) =
      Some (Complex 0.5%float 1.5%float).
Proof.
  intros Hlen. exists grid.
  split; [by apply fill_array_grid|].
  rewrite !grid_lookup by (unfold ROWS, COLS; lia).
  split_and!; reflexivity.
Qed.

Lemma fill_array_corners_witness :
  length (replicate (Z.to_nat (ROWS * COLS)) czero) = Z.to_nat (ROWS * COLS) /\
  exists array',
    fill_array (replicate (Z.to_nat (ROWS * COLS)) czero) = Some array' /\
    array' !! Z.to_nat (0 * COLS + 0) = Some (Complex (-2)%float (-1.5)%float) /\
    creal <$> array' !! Z.to_nat (0 * COLS + (COLS - 1)) = Some 0.5%float /\
    cimag <$> array' !! Z.to_nat ((ROWS - 1) * COLS + 0) = Some 1.5%float /\
    array' !! Z.to_nat ((ROWS - 1) * COLS + (COLS - 1)) =
      Some (Complex 0.5%float 1.5%float).
Proof.
  assert (Hlen : length (replicate (Z.to_nat (ROWS * COLS)) czero)
                 = Z.to_nat (ROWS * COLS)) by (vm_compute; reflexivity).
  split; [exact Hlen|].
  exact (fill_array_corners _ Hlen).
Defined.

(** ** The renderer *)

Lemma seqZ_snoc (n : Z) : 0 <= n -> seqZ 0 (n + 1) = seqZ 0 n ++ [n].
Proof.
  intros Hn. rewrite seqZ_app by lia. by f_equal.
Qed.

Lemma unlines_snoc (lines : list (list ascii)) (line : list ascii) :
  unlines (lines ++ [line]) =
  unlines lines ++ line ++ list_ascii_of_string newline.
Proof.
  unfold unlines. rewrite fmap_app, concat_app. cbn. by rewrite app_nil_r.
Qed.

Lemma fmap_constant {A B : Type} (f : A -> B) (b : B) (l : list A) :
  (forall x, x ∈ l -> f x = b) -> f <$> l = replicate (length l) b.
Proof.
  induction l as [|x l IH]; intros Hf; [done|].
  cbn. rewrite (Hf x) by left. f_equal. apply IH. intros y Hy. apply Hf. by right.
Qed.

Section Renderer.

Variable array : list Z.
Hypothesis array_size : (Z.to_nat (ROWS * COLS) <= length array)%nat.

Lemma cell_in_bounds (row col : Z) :
  0 <= row < ROWS -> 0 <= col < COLS ->
  load array (row * COLS + col) = Some (cell array row col) /\
  array !! Z.to_nat (row * COLS + col) = Some (cell array row col).
Proof.
  intros Hrow Hcol.
  destruct (load_in_bounds array (row * COLS + col)) as [Hload [v Hv]].
  { unfold ROWS, COLS in *. lia. }
  unfold cell. rewrite Hload, Hv. done.
Qed.

(** One row: the inner loop appends the glyphs of the row, in column
    order. *)
Lemma print_chart_row (row : Z) (out : list ascii) :
  0 <= row < ROWS ->
  for_loop_ub 0 COLS (fun j stdout =>
      value ← load array (row * COLS + j);
      if negb (value =? 0)
      then Some (printf "." stdout)
      else Some (printf " " stdout)) out
  = Some (out ++ chart_line array row).
Proof.
  intros Hrow.
  destruct (for_loop_ub_inv
    (fun j stdout => stdout = out ++ ((fun col => glyph (cell array row col)) <$> seqZ 0 j))
    (fun j stdout =>
      value ← load array (row * COLS + j);
      if negb (value =? 0)
      then Some (printf "." stdout)
      else Some (printf " " stdout)) COLS out) as (out' & Hrun & ->).
  - done.
  - by rewrite seqZ_nil, app_nil_r by lia.
  - intros j stdout Hj ->.
    destruct (cell_in_bounds row j Hrow Hj) as [-> _]. cbn [mbind option_bind].
    exists ((out ++ ((fun col => glyph (cell array row col)) <$> seqZ 0 j))
            ++ [glyph (cell array row j)]).
    split.
    + unfold glyph, printf. destruct (Z.eqb_spec (cell array row j) 0).
      * by rewrite bool_decide_eq_false_2 by (intros ?; done).
      * by rewrite bool_decide_eq_true_2.
    + by rewrite seqZ_snoc, fmap_app, app_assoc by lia.
  - done.
Qed.

Lemma print_chart_unlines (out : list ascii) :
  print_chart array out = Some (out ++ unlines (chart_lines array)).
Proof.
  unfold print_chart.
  destruct (for_loop_ub_inv
    (fun i stdout => stdout = out ++ unlines (chart_line array <$> seqZ 0 i))
    (fun i stdout =>
      stdout ← for_loop_ub 0 COLS (fun j stdout =>
        value ← load array (i * COLS + j);
        if negb (value =? 0)
        then Some (printf "." stdout)
        else Some (printf " " stdout))
      stdout;
      Some (printf newline stdout)) ROWS out) as (out' & Hrun & ->).
  - done.
  - by rewrite seqZ_nil, app_nil_r by lia.
  - intros i stdout Hi ->. rewrite print_chart_row by done.
    cbn [mbind option_bind]. eexists. split; [reflexivity|].
    unfold printf. rewrite seqZ_snoc, fmap_app by lia. cbn [fmap list_fmap].
    by rewrite unlines_snoc, <- !app_assoc.
  - done.
Qed.

Lemma chart_lines_length : length (chart_lines array) = Z.to_nat ROWS.
Proof. unfold chart_lines. by rewrite length_fmap, length_seqZ. Qed.

Lemma chart_line_length (row : Z) : length (chart_line array row) = Z.to_nat COLS.
Proof. unfold chart_line. by rewrite length_fmap, length_seqZ. Qed.

Lemma chart_lines_alphabet :
  Forall (fun line =>
            length line = Z.to_nat COLS /\
            Forall (fun ch => ch = "."%char \/ ch = " "%char) line)
         (chart_lines array).
Proof.
  unfold chart_lines. apply Forall_fmap, Forall_forall. intros row _. cbn.
  split; [apply chart_line_length|].
  unfold chart_line. apply Forall_fmap, Forall_forall. intros col _. cbn.
  unfold glyph. case_bool_decide; auto.
Qed.

Lemma chart_lines_lookup (row col : Z) :
  0 <= row < ROWS -> 0 <= col < COLS ->
  chart_lines array !! Z.to_nat row ≫= (fun line => line !! Z.to_nat col)
  = Some (glyph (cell array row col)).
Proof.
  intros Hrow Hcol. unfold chart_lines, chart_line.
  rewrite list_lookup_fmap, lookup_seqZ_lt by lia.
  cbn [fmap option_fmap option_map mbind option_bind].
  rewrite list_lookup_fmap, lookup_seqZ_lt by lia.
  cbn [fmap option_fmap option_map]. by rewrite !Z.add_0_l, !Z2Nat.id by lia.
Qed.

Lemma chart_lines_constant (P : Z -> Prop) (ch : ascii) :
  (forall value, P value -> glyph value = ch) ->
  Forall P array ->
  chart_lines array = replicate (Z.to_nat ROWS) (replicate (Z.to_nat COLS) ch).
Proof.
  intros Hglyph Hall. unfold chart_lines.
  rewrite <- (length_seqZ 0 ROWS). apply fmap_constant. intros row Hrow.
  apply elem_of_seqZ in Hrow. unfold chart_line.
  rewrite <- (length_seqZ 0 COLS). apply fmap_constant. intros col Hcol.
  apply elem_of_seqZ in Hcol. apply Hglyph.
  destruct (cell_in_bounds row col) as [_ Hcell]; [lia..|].
  by apply (Forall_lookup_1 _ _ _ _ Hall Hcell).
Qed.

End Renderer.

(** A chart is printed only from a buffer that covers the grid. *)
Lemma print_chart_Some_size (array : list Z) (out out' : list ascii) :
  print_chart array out = Some out' ->
  (Z.to_nat (ROWS * COLS) <= length array)%nat.
Proof.
  intros Hrun. unfold print_chart in Hrun.
  enough (ROWS * COLS <= Z.of_nat (length array)) by lia.
  apply (for_loop_ub_Some (fun i => i * COLS <= Z.of_nat (length array)))
    in Hrun; [done|done|unfold COLS; lia|].
  intros i s s' Hi Hpre Hrow.
  destruct (for_loop_ub 0 COLS _ s) as [s1|] eqn:Hcols; [|done].
  apply (for_loop_ub_Some
    (fun j => j = 0 \/ i * COLS + j <= Z.of_nat (length array)))
    in Hcols; [|done|by left|].
  - unfold COLS in *. lia.
  - intros j s2 s3 Hj _ Hbody. right.
    destruct (load array (i * COLS + j)) as [v|] eqn:Hload; [|done].
    apply load_Some in Hload. lia.
Qed.

(** C6. For a result buffer of [ROWS * COLS] elements, [print_chart] prints
    the lines of the chart and nothing else, each followed by one line
    terminator: there are [ROWS] lines of [COLS] characters, all of them ['.']
    or [' ']; character [col] of line [row] is ['.'] when cell
    [row * COLS + col] is stable (non-zero) and [' '] otherwise. A buffer
    that is stable everywhere gives [ROWS] lines of [COLS] dots, one that is
    unstable everywhere [ROWS] lines of [COLS] blanks. *)
Theorem print_chart_lines (array : list Z) :
  length array = Z.to_nat (ROWS * COLS) ->
  print_chart array [] = Some (unlines (chart_lines array)) /\
  length (chart_lines array) = Z.to_nat ROWS /\
  Forall (fun line =>
            length line = Z.to_nat COLS /\
            Forall (fun ch => ch = "."%char \/ ch = " "%char) line)
         (chart_lines array) /\
  (forall row col, 0 <= row < ROWS -> 0 <= col < COLS ->
     exists value,
       array !! Z.to_nat (row * COLS + col) = Some value /\
       chart_lines array !! Z.to_nat row ≫= (fun line => line !! Z.to_nat col)
       = Some (if bool_decide (value <> 0) then "."%char else " "%char)) /\
  (Forall (fun value => value <> 0) array ->
     chart_lines array
     = replicate (Z.to_nat ROWS) (replicate (Z.to_nat COLS) "."%char)) /\
  (Forall (fun value => value = 0) array ->
     chart_lines array
     = replicate (Z.to_nat ROWS) (replicate (Z.to_nat COLS) " "%char)).
Proof.
  intros Hsize.
  assert (Z.to_nat (ROWS * COLS) <= length array)%nat as Hle by lia.
  split_and!.
  - by rewrite print_chart_unlines.
  - apply chart_lines_length.
  - apply chart_lines_alphabet.
  - intros row col Hrow Hcol. exists (cell array row col). split.
    + by apply cell_in_bounds.
    + by apply chart_lines_lookup.
  - apply (chart_lines_constant array Hle).
    intros value Hvalue. unfold glyph. by rewrite bool_decide_eq_true_2.
  - apply (chart_lines_constant array Hle).
    intros value ->. reflexivity.
Qed.

Lemma print_chart_lines_witness :
  length (replicate (Z.to_nat (ROWS * COLS)) 1) = Z.to_nat (ROWS * COLS) /\
  print_chart (replicate (Z.to_nat (ROWS * COLS)) 1) []
  = Some (unlines (chart_lines (replicate (Z.to_nat (ROWS * COLS)) 1))).
Proof.
  assert (Hlen : length (replicate (Z.to_nat (ROWS * COLS)) 1)
                 = Z.to_nat (ROWS * COLS)) by (vm_compute; reflexivity).
  split; [exact Hlen|].
  exact (proj1 (print_chart_lines _ Hlen)).
Defined.

(** ** Object representation *)

Lemma Z_of_byte_of_Z (x : Z) : Z_of_byte (byte_of_Z x) = x mod 256.
Proof.
  unfold Z_of_byte, byte_of_Z.
  pose proof (Z.mod_pos_bound x 256 eq_refl) as Hx.
  destruct (Byte.of_N (Z.to_N (x mod 256))) as [b|] eqn:Hb.
  - apply Byte.to_of_N in Hb. rewrite Hb. lia.
  - apply Byte.of_N_None_iff in Hb. lia.
Qed.

Lemma le_value_le_bytes (n : nat) (x : Z) :
  le_value (le_bytes n x) = x mod 256 ^ Z.of_nat n.
Proof.
  revert x. induction n as [|n IH]; intros x.
  - cbn. by rewrite Z.mod_1_r.
  - cbn [le_bytes le_value]. rewrite Z_of_byte_of_Z, IH.
    rewrite Nat2Z.inj_succ, Z.pow_succ_r by lia.
    symmetry. apply Z.rem_mul_r; lia.
Qed.

Lemma le_bytes_length (n : nat) (x : Z) : length (le_bytes n x) = n.
Proof. revert x. induction n as [|n IH]; intros x; cbn; by rewrite ?IH. Qed.

(** An [int] survives the trip through its bytes. *)
Lemma int_of_bytes_of_int (i : Z) :
  - 2 ^ 31 <= i < 2 ^ 31 -> int_of_bytes (bytes_of_int i) = i.
Proof.
  intros Hi. unfold int_of_bytes, bytes_of_int.
  rewrite take_ge by (by rewrite le_bytes_length).
  rewrite le_value_le_bytes.
  change (256 ^ Z.of_nat sizeof_int) with (2 ^ 32).
  pose proof (Z.div_mod i (2 ^ 32)).
  pose proof (Z.mod_pos_bound i (2 ^ 32)).
  destruct (Z.ltb_spec (i mod 2 ^ 32) (2 ^ 31)); lia.
Qed.

(** ** The submission loop *)

Lemma named_index_descriptor (cl0 : starpu_codelet)
    (mode : starpu_data_access_mode) (handle : starpu_data_handle_t)
    (c : complex) (i : Z) :
  0 <= i < ROWS * COLS ->
  named_index (descriptor cl0 mode handle c i) = Some i.
Proof.
  intros Hi. unfold named_index.
  cbn [descriptor task_cl_arg lookup list_lookup fmap option_fmap option_map].
  rewrite int_of_bytes_of_int; [done|]. unfold ROWS, COLS in Hi. lia.
Qed.

Section Submission.

Variable cabs : complex -> float.
Variable matrix : list complex.
Variable matrix_handle : starpu_data_handle_t.
Hypothesis matrix_size : length matrix = Z.to_nat (ROWS * COLS).

Local Abbreviation cell_input := (cell_input matrix).
Local Abbreviation submitted := (submitted cabs matrix matrix_handle).

Lemma cell_input_in_bounds (i : Z) :
  0 <= i < ROWS * COLS ->
  load matrix i = Some (cell_input i) /\
  matrix !! Z.to_nat i = Some (cell_input i).
Proof.
  intros Hi. destruct (load_in_bounds matrix i) as [Hload [c Hc]]; [lia|].
  unfold cell_input. by rewrite Hload, Hc.
Qed.

Lemma submit_all_submitted :
  submit_all cabs matrix matrix_handle = Some submitted.
Proof.
  unfold submit_all.
  destruct (for_loop_ub_inv
    (fun i queue =>
       queue = (fun k => descriptor (cl cabs) STARPU_R matrix_handle
                           (cell_input k) k)
               <$> seqZ 0 i)
    (fun i queue =>
       c ← load matrix i;
       Some (starpu_task_insert (cl cabs) STARPU_R matrix_handle
               [bytes_of_complex c; bytes_of_int i] queue))
    (ROWS * COLS) []) as (queue & Hrun & ->).
  - done.
  - by rewrite seqZ_nil by lia.
  - intros i queue Hi ->. destruct (cell_input_in_bounds i Hi) as [-> _].
    cbn [mbind option_bind]. eexists. split; [reflexivity|].
    by rewrite seqZ_snoc, fmap_app by lia.
  - done.
Qed.

Lemma submitted_length : length submitted = Z.to_nat (ROWS * COLS).
Proof. unfold submitted. by rewrite length_fmap, length_seqZ. Qed.

Lemma submitted_lookup (i : Z) :
  0 <= i < ROWS * COLS ->
  submitted !! Z.to_nat i
  = Some (descriptor (cl cabs) STARPU_R matrix_handle (cell_input i) i).
Proof.
  intros Hi. unfold submitted.
  rewrite list_lookup_fmap, lookup_seqZ_lt by lia.
  cbn [fmap option_fmap option_map]. by rewrite Z.add_0_l, Z2Nat.id by lia.
Qed.

Lemma submitted_indices :
  named_index <$> submitted = Some <$> seqZ 0 (ROWS * COLS).
Proof.
  unfold submitted. rewrite <- list_fmap_compose.
  apply list_fmap_ext. intros n i Hn.
  apply lookup_seqZ in Hn. unfold compose. apply named_index_descriptor. lia.
Qed.

Lemma submitted_NoDup : NoDup (named_index <$> submitted).
Proof. rewrite submitted_indices. apply NoDup_fmap; [apply _|apply NoDup_seqZ]. Qed.

Lemma submitted_named (n : nat) (i : Z) :
  submitted !! n ≫= named_index = Some i <-> n = Z.to_nat i /\ 0 <= i < ROWS * COLS.
Proof.
  assert (named_index <$> submitted !! n = (Some <$> seqZ 0 (ROWS * COLS)) !! n) as Hn
    by (by rewrite <- list_lookup_fmap, submitted_indices).
  rewrite list_lookup_fmap in Hn. split.
  - intros Hi. destruct (submitted !! n) as [t|] eqn:Ht; [|done].
    cbn in Hi, Hn. rewrite Hi in Hn.
    destruct (seqZ 0 (ROWS * COLS) !! n) as [k|] eqn:Hk; [|done].
    cbn in Hn. apply lookup_seqZ in Hk. simplify_eq. lia.
  - intros [-> Hi]. rewrite submitted_lookup by done. cbn [mbind option_bind].
    by apply named_index_descriptor.
Qed.

End Submission.

(** C3. On a grid of [ROWS * COLS] cell inputs, the loop of [main] submits
    exactly [ROWS * COLS] task descriptors, the one submitted at turn [i]
    carrying cell input [i] and naming index [i]: the indices named are
    [0, 1, ..., ROWS * COLS - 1] in this order, every index in range is named
    by exactly one descriptor, and no two descriptors name the same index. *)
Theorem submit_all_covers (cabs : complex -> float) (matrix : list complex)
    (matrix_handle : starpu_data_handle_t) :
  length matrix = Z.to_nat (ROWS * COLS) ->
  exists queue,
    submit_all cabs matrix matrix_handle = Some queue /\
    length queue = Z.to_nat (ROWS * COLS) /\
    (forall i, 0 <= i < ROWS * COLS ->
       exists c,
         matrix !! Z.to_nat i = Some c /\
         queue !! Z.to_nat i
         = Some (descriptor (cl cabs) STARPU_R matrix_handle c i)) /\
    named_index <$> queue = Some <$> seqZ 0 (ROWS * COLS) /\
    (forall i, 0 <= i < ROWS * COLS ->
       exists n, queue !! n ≫= named_index = Some i /\
                 forall m, queue !! m ≫= named_index = Some i -> m = n) /\
    (forall n m t u,
       queue !! n = Some t -> queue !! m = Some u -> n <> m ->
       named_index t <> named_index u).
Proof.
  intros Hsize. exists (submitted cabs matrix matrix_handle). split_and!.
  - by apply submit_all_submitted.
  - by apply submitted_length.
  - intros i Hi. exists (cell_input matrix i). split.
    + by apply cell_input_in_bounds.
    + by apply submitted_lookup.
  - by apply submitted_indices.
  - intros i Hi. exists (Z.to_nat i). split.
    + by apply submitted_named.
    + intros m Hm. by apply submitted_named in Hm as [-> _].
  - intros n m t u Ht Hu Hnm Heq. apply Hnm.
    assert (NoDup (named_index <$> submitted cabs matrix matrix_handle)) as Hnd
      by (by apply submitted_NoDup).
    apply (NoDup_lookup _ n m (named_index t) Hnd).
    + by rewrite list_lookup_fmap, Ht.
    + by rewrite list_lookup_fmap, Hu, Heq.
Qed.

Lemma submit_all_covers_witness :
  length grid = Z.to_nat (ROWS * COLS) /\
  exists queue,
    submit_all cabs_sqrt grid 0%nat = Some queue /\
    length queue = Z.to_nat (ROWS * COLS).
Proof.
  split; [exact grid_length|].
  destruct (submit_all_covers cabs_sqrt grid 0%nat grid_length)
    as (queue & Hqueue & Hlength & _).
  exists queue. exact (conj Hqueue Hlength).
Defined.

(** C2. The codelet declares its one buffer with mode [STARPU_R], and every
    task [main] submits passes the handle with mode [STARPU_R]: the
    dependency on the result buffer is declared read-only in both places,
    not write-only. *)
Theorem buffer_declared_read_only (cabs : complex -> float)
    (matrix : list complex) (matrix_handle : starpu_data_handle_t) :
  length matrix = Z.to_nat (ROWS * COLS) ->
  modes (cl cabs) = [STARPU_R] /\
  STARPU_R <> STARPU_W /\
  exists queue,
    submit_all cabs matrix matrix_handle = Some queue /\
    Forall (fun t => task_handles t = [(STARPU_R, matrix_handle)] /\
                     modes (task_cl t) = [STARPU_R]) queue.
Proof.
  intros Hsize. split_and!; [done|done|].
  exists (submitted cabs matrix matrix_handle). split.
  - by apply submit_all_submitted.
  - unfold submitted. apply Forall_fmap, Forall_forall. by intros i _.
Qed.

Lemma buffer_declared_read_only_witness :
  length grid = Z.to_nat (ROWS * COLS) /\
  modes (cl cabs_sqrt) = [STARPU_R].
Proof.
  split; [exact grid_length|].
  exact (proj1 (buffer_declared_read_only cabs_sqrt grid 0%nat grid_length)).
Defined.

(** ** The kernel *)

Lemma bytes_of_complex_length (c : complex) :
  length (bytes_of_complex c) = sizeof_double_complex.
Proof.
  unfold bytes_of_complex, bytes_of_double.
  by rewrite length_app, !le_bytes_length.
Qed.

(** A call that passes one pointer, and no null pointer after it, for two
    packed arguments or more takes a pointer that was not passed. *)
Lemma unpack_args_missing_pointer (packed packed' : list byte)
    (rest : cl_arg_t) (size : nat) :
  starpu_codelet_unpack_args (packed :: packed' :: rest) [Some size] = None.
Proof.
  cbn [starpu_codelet_unpack_args]. destruct (Nat.leb _ _); reflexivity.
Qed.

(** A packed argument longer than the object it is copied to. *)
Lemma unpack_args_overflow (packed : list byte) (rest : cl_arg_t) (size : nat)
    (pointers : list (option nat)) :
  (size < length packed)%nat ->
  starpu_codelet_unpack_args (packed :: rest) (Some size :: pointers) = None.
Proof.
  intros Hsize. cbn [starpu_codelet_unpack_args].
  destruct (Nat.leb_spec (length packed) size); [lia|reflexivity].
Qed.

(** On the arguments [main] packs, the first call of [cpu_func] is undefined
    for want of a second pointer, and so is the kernel. *)
Lemma cpu_func_two_packed (cabs : complex -> float) (val : list Z)
    (packed packed' : list byte) (rest : cl_arg_t) :
  cpu_func cabs val (packed :: packed' :: rest) = None.
Proof.
  unfold cpu_func.
  by rewrite (unpack_args_missing_pointer _ _ _ sizeof_double_complex).
Qed.

Lemma execute_descriptor (cabs : complex -> float)
    (mode : starpu_data_access_mode) (handle : starpu_data_handle_t)
    (c : complex) (i : Z) (val : list Z) :
  execute_task (descriptor (cl cabs) mode handle c i) val = None.
Proof.
  unfold execute_task. cbn [descriptor task_cl cl cpu_funcs task_cl_arg].
  apply cpu_func_two_packed.
Qed.

(** C1, on the code. [main] fills the grid and submits one descriptor per
    grid index, packing the cell input (16 bytes) and the index (4 bytes).
    In the kernel of every one of them both calls of
    [starpu_codelet_unpack_args] are undefined: each passes one pointer and
    no null pointer for two packed arguments, and the second, even if a null
    pointer ended its list, has the 16 bytes of the cell input copied to the
    [int i]. So the execution of every unit
    is undefined, and so is a run of the queue in order: nothing makes slot
    [i] receive [is_stable] of cell input [i]. *)
Theorem units_undefined (cabs : complex -> float)
    (matrix0 : list complex) (matrix_handle : starpu_data_handle_t) :
  length matrix0 = Z.to_nat (ROWS * COLS) ->
  exists matrix queue,
    fill_array matrix0 = Some matrix /\
    submit_all cabs matrix matrix_handle = Some queue /\
    (forall i, 0 <= i < ROWS * COLS ->
       exists c t,
         matrix !! Z.to_nat i = Some c /\
         queue !! Z.to_nat i = Some t /\
         task_cl_arg t = [bytes_of_complex c; bytes_of_int i] /\
         starpu_codelet_unpack_args (task_cl_arg t) [Some sizeof_double_complex]
         = None /\
         starpu_codelet_unpack_args (task_cl_arg t) [Some sizeof_int] = None /\
         starpu_codelet_unpack_args (task_cl_arg t) [Some sizeof_int; None]
         = None /\
         forall val, execute_task t val = None) /\
    (forall val, run_in_order queue val = None).
Proof.
  intros Hsize.
  pose proof (fill_array_grid matrix0 Hsize) as Hfill.
  pose proof (submit_all_submitted cabs grid matrix_handle grid_length) as Hqueue.
  exists grid, (submitted cabs grid matrix_handle).
  split; [exact Hfill|]. split; [exact Hqueue|]. clear Hfill Hqueue. split.
  - intros i Hi.
    exists (cell_input grid i),
      (descriptor (cl cabs) STARPU_R matrix_handle (cell_input grid i) i).
    split; [exact (proj2 (cell_input_in_bounds grid grid_length i Hi))|].
    split; [exact (submitted_lookup cabs grid matrix_handle grid_length i Hi)|].
    split; [reflexivity|].
    split; [apply unpack_args_missing_pointer|].
    split; [apply unpack_args_missing_pointer|].
    split.
    { apply unpack_args_overflow. rewrite bytes_of_complex_length.
      unfold sizeof_int, sizeof_double_complex. lia. }
    intros val. apply execute_descriptor.
  - intros val. unfold submitted.
    rewrite (seqZ_cons 0) by (unfold ROWS, COLS; lia).
    cbn [fmap list_fmap run_in_order]. by rewrite execute_descriptor.
Qed.

Lemma units_undefined_witness :
  length grid = Z.to_nat (ROWS * COLS) /\
  exists matrix queue,
    fill_array grid = Some matrix /\
    submit_all cabs_sqrt matrix 0%nat = Some queue /\
    forall val, run_in_order queue val = None.
Proof.
  split; [exact grid_length|].
  destruct (units_undefined cabs_sqrt grid 0%nat grid_length)
    as (matrix & queue & Hfill & Hqueue & _ & Hrun).
  exists matrix, queue. exact (conj Hfill (conj Hqueue Hrun)).
Defined.

(** ** The process *)

Section Process.

Variable cabs : complex -> float.
Variable task_runtime : list starpu_task -> list Z -> ub (list Z).

(** A run that gets past the two allocations and comes to its end has
    printed the chart of the buffer the runtime left, and nothing else. *)
Lemma main_success (matrix : list complex) (mask : list Z) (p : process) :
  main cabs task_runtime (Some matrix) (Some mask) = Some p ->
  exists mask',
    (Z.to_nat (ROWS * COLS) <= length mask')%nat /\
    p = {| stdout := unlines (chart_lines mask'); stderr := []; status := 0 |}.
Proof.
  unfold main. intros Hrun.
  destruct (fill_array matrix) as [matrix'|]; [|done].
  cbn [mbind option_bind] in Hrun.
  destruct (submit_all cabs matrix' 0%nat) as [queue|]; [|done].
  cbn [mbind option_bind] in Hrun.
  destruct (task_runtime queue mask) as [mask'|]; [|done].
  cbn [mbind option_bind] in Hrun.
  destruct (print_chart mask' []) as [out|] eqn:Hout; [|done].
  cbn [mbind option_bind] in Hrun. injection Hrun as <-.
  exists mask'. pose proof (print_chart_Some_size _ _ _ Hout) as Hsize.
  split; [done|]. rewrite (print_chart_unlines mask' Hsize) in Hout.
  by injection Hout as <-.
Qed.

Lemma main_steps (matrix matrix' : list complex) (queue : list starpu_task)
    (mask mask' : list Z) (out : list ascii) :
  fill_array matrix = Some matrix' ->
  submit_all cabs matrix' 0%nat = Some queue ->
  task_runtime queue mask = Some mask' ->
  print_chart mask' [] = Some out ->
  main cabs task_runtime (Some matrix) (Some mask)
  = Some {| stdout := out; stderr := []; status := 0 |}.
Proof.
  intros Hfill Hsubmit Hruntime Hprint. unfold main.
  rewrite Hfill. cbn [mbind option_bind].
  rewrite Hsubmit. cbn [mbind option_bind].
  rewrite Hruntime. cbn [mbind option_bind].
  by rewrite Hprint.
Qed.

(** With both blocks allocated, a run exits normally as soon as the runtime
    returns from the barrier with a buffer that covers the grid. *)
Lemma main_runs (matrix : list complex) (mask mask' : list Z) :
  length matrix = Z.to_nat (ROWS * COLS) ->
  (Z.to_nat (ROWS * COLS) <= length mask')%nat ->
  task_runtime (submitted cabs grid 0%nat) mask = Some mask' ->
  main cabs task_runtime (Some matrix) (Some mask)
  = Some {| stdout := unlines (chart_lines mask'); stderr := []; status := 0 |}.
Proof.
  intros Hmatrix Hmask Hruntime.
  apply (main_steps matrix grid (submitted cabs grid 0%nat) mask mask').
  - exact (fill_array_grid matrix Hmatrix).
  - exact (submit_all_submitted cabs grid 0%nat grid_length).
  - exact Hruntime.
  - exact (print_chart_unlines mask' Hmask []).
Qed.

End Process.

(** C7. If the allocation of the grid fails, or that of the result buffer
    does, [main] reports the failure, prints nothing on [stdout] and exits
    with status 1; each allocation has its own check and its own report. A
    run that gets past both allocations and comes to its end exits with
    status 0, having reported nothing. *)
Theorem main_exit_status (cabs : complex -> float)
    (task_runtime : list starpu_task -> list Z -> ub (list Z)) :
  (forall malloc_mask,
     main cabs task_runtime None malloc_mask
     = Some {| stdout := []; stderr := ["malloc"%string]; status := 1 |}) /\
  (forall matrix,
     main cabs task_runtime (Some matrix) None
     = Some {| stdout := []; stderr := ["malloc"%string]; status := 1 |}) /\
  (forall matrix mask p,
     main cabs task_runtime (Some matrix) (Some mask) = Some p ->
     status p = 0 /\ stderr p = []).
Proof.
  split_and!.
  - reflexivity.
  - reflexivity.
  - intros matrix mask p Hrun.
    destruct (main_success cabs task_runtime matrix mask p Hrun) as (mask' & _ & ->).
    by split.
Qed.

Lemma main_exit_status_witness :
  main cabs_sqrt (fun _ mask => Some mask)
       (Some grid) (Some (replicate (Z.to_nat (ROWS * COLS)) 0))
  = Some {| stdout := unlines (chart_lines (replicate (Z.to_nat (ROWS * COLS)) 0));
            stderr := []; status := 0 |} /\
  status {| stdout := unlines (chart_lines (replicate (Z.to_nat (ROWS * COLS)) 0));
            stderr := []; status := 0 |} = 0 /\
  stderr {| stdout := unlines (chart_lines (replicate (Z.to_nat (ROWS * COLS)) 0));
            stderr := []; status := 0 |} = [].
Proof.
  assert (Hrun :
    main cabs_sqrt (fun _ mask => Some mask)
         (Some grid) (Some (replicate (Z.to_nat (ROWS * COLS)) 0))
    = Some {| stdout := unlines (chart_lines (replicate (Z.to_nat (ROWS * COLS)) 0));
              stderr := []; status := 0 |}).
  { apply main_runs.
    - exact grid_length.
    - rewrite length_replicate. apply Nat.le_refl.
    - reflexivity. }
  split; [exact Hrun|].
  exact (proj2 (proj2 (main_exit_status cabs_sqrt (fun _ mask => Some mask)))
           _ _ _ Hrun).
Defined.



(** * Further properties *)

(** ** More on loops *)

(** What a loop that has succeeded tells of its final state. *)
Lemma for_up_ub_post {S : Type} (P : Z -> S -> Prop) (body : Z -> S -> ub S) :
  forall (n : nat) (i : Z) (s s' : S),
    P i s ->
    (forall k s s', i <= k < i + Z.of_nat n -> P k s -> body k s = Some s' ->
       P (k + 1) s') ->
    for_up_ub n i body s = Some s' ->
    P (i + Z.of_nat n) s'.
Proof.
  induction n as [|n IH]; intros i s s' Hi Hbody Hrun.
  - cbn in Hrun. injection Hrun as <-. by replace (i + Z.of_nat 0) with i by lia.
  - cbn [for_up_ub] in Hrun. destruct (body i s) as [s1|] eqn:Hs1; [|done].
    replace (i + Z.of_nat (Datatypes.S n)) with (i + 1 + Z.of_nat n) by lia.
    apply (IH (i + 1) s1 s'); [|intros k s2 s3 Hk; apply Hbody; lia|done].
    apply (Hbody i s s1); [lia|done|done].
Qed.

Lemma for_loop_ub_post {S : Type} (P : Z -> S -> Prop) (body : Z -> S -> ub S)
    (hi : Z) (s s' : S) :
  0 <= hi ->
  P 0 s ->
  (forall k s s', 0 <= k < hi -> P k s -> body k s = Some s' -> P (k + 1) s') ->
  for_loop_ub 0 hi body s = Some s' ->
  P hi s'.
Proof.
  intros Hhi H0 Hbody Hrun. unfold for_loop_ub in Hrun.
  replace hi with (0 + Z.of_nat (Z.to_nat (hi - 0))) by lia.
  apply (for_up_ub_post P body _ 0 s s'); [done| |done].
  intros k s1 s2 Hk. apply Hbody. lia.
Qed.

(** Two loops whose bodies keep a relation between their states, the second
    succeeding whenever the first does, end in related states. *)
Lemma for_up_ub_sim {S T : Type} (R : S -> T -> Prop)
    (body1 : Z -> S -> ub S) (body2 : Z -> T -> ub T) :
  (forall k s t s', R s t -> body1 k s = Some s' ->
     exists t', body2 k t = Some t' /\ R s' t') ->
  forall (n : nat) (i : Z) (s s' : S) (t : T),
    R s t ->
    for_up_ub n i body1 s = Some s' ->
    exists t', for_up_ub n i body2 t = Some t' /\ R s' t'.
Proof.
  intros Hbody. induction n as [|n IH]; intros i s s' t Hst Hrun.
  - cbn in Hrun. injection Hrun as <-. by exists t.
  - cbn [for_up_ub] in *. destruct (body1 i s) as [s1|] eqn:Hs1; [|done].
    destruct (Hbody i s t s1 Hst Hs1) as (t1 & -> & Hst1).
    by apply (IH (i + 1) s1 s' t1).
Qed.

(** ** More on memory *)

Lemma store_Some {A : Type} (array array' : list A) (k : Z) (v : A) :
  store array k v = Some array' ->
  0 <= k < Z.of_nat (length array) /\ array' = <[Z.to_nat k := v]> array.
Proof.
  unfold store.
  destruct (Z.leb_spec 0 k), (Z.ltb_spec k (Z.of_nat (length array)));
    cbn; intros Heq; try discriminate Heq.
  injection Heq as <-. split; [lia|reflexivity].
Qed.

Lemma store_app {A : Type} (array array' rest : list A) (k : Z) (v : A) :
  store array k v = Some array' ->
  store (array ++ rest) k v = Some (array' ++ rest).
Proof.
  intros H. apply store_Some in H as [Hk ->].
  rewrite store_in_bounds by (rewrite length_app; lia).
  by rewrite insert_app_l by lia.
Qed.

(** ** [fill_array], bounds and frame *)

Lemma fill_array_unfold (array : list complex) :
  fill_array array
  = for_loop_ub 0 ROWS (fun i array =>
      for_loop_ub 0 COLS (fun j array =>
        store array (i * COLS + j) (stored_cell i j)) array) array.
Proof. reflexivity. Qed.

Lemma fill_array_app (array array' rest : list complex) :
  fill_array array = Some array' ->
  fill_array (array ++ rest) = Some (array' ++ rest).
Proof.
  rewrite !fill_array_unfold. unfold for_loop_ub. intros Hrun.
  destruct (for_up_ub_sim (fun s t => t = s ++ rest)
    (fun i array => for_up_ub (Z.to_nat (COLS - 0)) 0 (fun j array =>
        store array (i * COLS + j) (stored_cell i j)) array)
    (fun i array => for_up_ub (Z.to_nat (COLS - 0)) 0 (fun j array =>
        store array (i * COLS + j) (stored_cell i j)) array))
    with (n := Z.to_nat (ROWS - 0)) (i := 0) (s := array) (s' := array')
         (t := array ++ rest) as (t' & Ht' & ->); [|reflexivity|exact Hrun|exact Ht'].
  intros i s t s' -> Hrow.
  destruct (for_up_ub_sim (fun s t => t = s ++ rest)
    (fun j array => store array (i * COLS + j) (stored_cell i j))
    (fun j array => store array (i * COLS + j) (stored_cell i j)))
    with (n := Z.to_nat (COLS - 0)) (i := 0) (s := s) (s' := s')
         (t := s ++ rest) as (t' & Ht' & ->); [|reflexivity|exact Hrow|].
  - intros j a t a' -> Hstore. exists (a' ++ rest). split; [|reflexivity].
    by apply store_app.
  - by exists (s' ++ rest).
Qed.

(** X1. On an array of at least [ROWS * COLS] elements [fill_array]
    writes the grid over the first [ROWS * COLS] and leaves every later
    element as it was. *)
Theorem fill_array_frame (array : list complex) :
  (Z.to_nat (ROWS * COLS) <= length array)%nat ->
  fill_array array = Some (grid ++ drop (Z.to_nat (ROWS * COLS)) array).
Proof.
  intros Hlen.
  rewrite <- (take_drop (Z.to_nat (ROWS * COLS)) array) at 1.
  apply fill_array_app, fill_array_grid.
  by rewrite length_take_le.
Qed.

Lemma fill_array_Some_size (array array' : list complex) :
  fill_array array = Some array' ->
  (Z.to_nat (ROWS * COLS) <= length array)%nat.
Proof.
  rewrite fill_array_unfold. intros Hrun.
  enough (length array' = length array /\ ROWS * COLS <= Z.of_nat (length array))
    by lia.
  apply (for_loop_ub_post
    (fun i a => length a = length array /\ i * COLS <= Z.of_nat (length array)))
    in Hrun; [exact Hrun|done|split; [done|unfold COLS; lia]|].
  intros i s s' Hi [Hs Hpre] Hrow.
  apply (for_loop_ub_post
    (fun j a => length a = length array /\
                (j = 0 \/ i * COLS + j <= Z.of_nat (length array))))
    in Hrow; [|done|split; [done|by left]|].
  - destruct Hrow as [Hs' Hrow]. split; [done|]. unfold COLS in *. lia.
  - intros j a a' Hj [Ha _] Hstore. apply store_Some in Hstore as [Hk ->].
    rewrite length_insert. split; [done|]. right. lia.
Qed.

Lemma fill_array_frame_witness :
  (Z.to_nat (ROWS * COLS) <= length (grid ++ [czero]))%nat /\
  fill_array (grid ++ [czero])
  = Some (grid ++ drop (Z.to_nat (ROWS * COLS)) (grid ++ [czero])).
Proof.
  assert (Z.to_nat (ROWS * COLS) <= length (grid ++ [czero]))%nat as Hlen
    by (rewrite length_app, grid_length; apply Nat.le_add_r).
  split; [exact Hlen|]. exact (fill_array_frame _ Hlen).
Defined.

(** X2. On an array of fewer than [ROWS * COLS] elements [fill_array] runs
    past the end of the array: its behaviour is undefined. *)
Theorem fill_array_short (array : list complex) :
  (length array < Z.to_nat (ROWS * COLS))%nat ->
  fill_array array = None.
Proof.
  intros Hlen. destruct (fill_array array) as [array'|] eqn:Hrun; [|reflexivity].
  apply fill_array_Some_size in Hrun. lia.
Qed.

Lemma fill_array_short_witness :
  (length (@nil complex) < Z.to_nat (ROWS * COLS))%nat /\ fill_array [] = None.
Proof.
  assert (length (@nil complex) < Z.to_nat (ROWS * COLS))%nat as Hlen
    by (vm_compute; lia).
  split; [exact Hlen|]. exact (fill_array_short [] Hlen).
Defined.

(** ** The grid *)

(** A property checked on every counter of a range holds on the range. *)
Lemma forallb_seqZ (f : Z -> bool) (n : Z) :
  forallb f (seqZ 0 n) = true -> forall k, 0 <= k < n -> f k = true.
Proof.
  intros Hall k Hk. apply (proj1 (forallb_forall f (seqZ 0 n)) Hall).
  apply list_elem_of_In, elem_of_seqZ. lia.
Qed.

Lemma ltb_irrefl (x : float) : PrimFloat.ltb x x = false.
Proof.
  rewrite FloatAxioms.ltb_spec. unfold SFltb, SFcompare.
  destruct (Prim2SF x) as [[]|[]| |[] m e]; try reflexivity.
  - rewrite Z.compare_refl, Pos.compare_cont_refl. reflexivity.
  - rewrite Z.compare_refl, Pos.compare_cont_refl. reflexivity.
Qed.

Lemma columns_in_range :
  forallb (fun col =>
    PrimFloat.leb real_start (creal (grid_point 0 col)) &&
    PrimFloat.leb (creal (grid_point 0 col)) real_end) (seqZ 0 COLS) = true.
Proof. vm_compute. reflexivity. Qed.

Lemma rows_in_range :
  forallb (fun row =>
    PrimFloat.leb imag_start (cimag (grid_point row 0)) &&
    PrimFloat.leb (cimag (grid_point row 0)) imag_end) (seqZ 0 ROWS) = true.
Proof. vm_compute. reflexivity. Qed.

Lemma grid_point_in_rectangle (row col : Z) :
  0 <= row < ROWS -> 0 <= col < COLS -> in_rectangle (grid_point row col) = true.
Proof.
  intros Hrow Hcol.
  pose proof (forallb_seqZ _ _ columns_in_range col Hcol) as Hre.
  pose proof (forallb_seqZ _ _ rows_in_range row Hrow) as Him.
  cbn beta in Hre, Him. apply andb_prop in Hre as [Hre1 Hre2].
  apply andb_prop in Him as [Him1 Him2].
  unfold in_rectangle.
  change (creal (grid_point row col)) with (creal (grid_point 0 col)).
  change (cimag (grid_point row col)) with (cimag (grid_point row 0)).
  by rewrite Hre1, Hre2, Him1, Him2.
Qed.

Lemma columns_increase :
  forallb (fun col1 => forallb (fun col2 =>
    implb (col1 <? col2)
      (PrimFloat.ltb (creal (grid_point 0 col1)) (creal (grid_point 0 col2))))
    (seqZ 0 COLS)) (seqZ 0 COLS) = true.
Proof. vm_compute. reflexivity. Qed.

Lemma rows_increase :
  forallb (fun row1 => forallb (fun row2 =>
    implb (row1 <? row2)
      (PrimFloat.ltb (cimag (grid_point row1 0)) (cimag (grid_point row2 0))))
    (seqZ 0 ROWS)) (seqZ 0 ROWS) = true.
Proof. vm_compute. reflexivity. Qed.

Lemma creal_increases (row row' col1 col2 : Z) :
  0 <= col1 < col2 -> col2 < COLS ->
  PrimFloat.ltb (creal (grid_point row col1)) (creal (grid_point row' col2)) = true.
Proof.
  intros Hcol1 Hcol2.
  pose proof (forallb_seqZ _ _ columns_increase col1 ltac:(lia)) as Hrow.
  pose proof (forallb_seqZ _ _ Hrow col2 ltac:(lia)) as Hlt. cbn beta in Hlt.
  destruct (Z.ltb_spec col1 col2); [exact Hlt|lia].
Qed.

Lemma cimag_increases (row1 row2 col col' : Z) :
  0 <= row1 < row2 -> row2 < ROWS ->
  PrimFloat.ltb (cimag (grid_point row1 col)) (cimag (grid_point row2 col')) = true.
Proof.
  intros Hrow1 Hrow2.
  pose proof (forallb_seqZ _ _ rows_increase row1 ltac:(lia)) as Hcol.
  pose proof (forallb_seqZ _ _ Hcol row2 ltac:(lia)) as Hlt. cbn beta in Hlt.
  destruct (Z.ltb_spec row1 row2); [exact Hlt|lia].
Qed.

Lemma grid_point_inj (row1 col1 row2 col2 : Z) :
  0 <= row1 < ROWS -> 0 <= col1 < COLS ->
  0 <= row2 < ROWS -> 0 <= col2 < COLS ->
  grid_point row1 col1 = grid_point row2 col2 ->
  row1 = row2 /\ col1 = col2.
Proof.
  intros Hrow1 Hcol1 Hrow2 Hcol2 Heq.
  assert (creal (grid_point row1 col1) = creal (grid_point row2 col2)) as Hre
    by (by rewrite Heq).
  assert (cimag (grid_point row1 col1) = cimag (grid_point row2 col2)) as Him
    by (by rewrite Heq).
  clear Heq. split.
  - destruct (Z.lt_trichotomy row1 row2) as [Hlt|[Heq|Hgt]]; [|exact Heq|].
    + pose proof (cimag_increases row1 row2 col1 col2 ltac:(lia) ltac:(lia)) as H.
      rewrite Him, ltb_irrefl in H. discriminate H.
    + pose proof (cimag_increases row2 row1 col2 col1 ltac:(lia) ltac:(lia)) as H.
      rewrite Him, ltb_irrefl in H. discriminate H.
  - destruct (Z.lt_trichotomy col1 col2) as [Hlt|[Heq|Hgt]]; [|exact Heq|].
    + pose proof (creal_increases row1 row2 col1 col2 ltac:(lia) ltac:(lia)) as H.
      rewrite Hre, ltb_irrefl in H. discriminate H.
    + pose proof (creal_increases row2 row1 col2 col1 ltac:(lia) ltac:(lia)) as H.
      rewrite Hre, ltb_irrefl in H. discriminate H.
Qed.

Lemma grid_lookup_Some (n : nat) (c : complex) :
  grid !! n = Some c ->
  exists row col, 0 <= row < ROWS /\ 0 <= col < COLS /\
    Z.of_nat n = row * COLS + col /\ c = grid_point row col.
Proof.
  unfold grid. rewrite list_lookup_fmap. intros Hn.
  destruct (seqZ 0 (ROWS * COLS) !! n) as [k|] eqn:Hk; [|discriminate Hn].
  apply lookup_seqZ in Hk as [-> Hk]. cbn in Hn. injection Hn as <-.
  exists (Z.of_nat n / COLS), (Z.of_nat n mod COLS).
  unfold ROWS, COLS in *.
  pose proof (Z.div_mod (Z.of_nat n) 100).
  pose proof (Z.mod_pos_bound (Z.of_nat n) 100).
  split_and!; try lia. by rewrite Z.add_0_l.
Qed.

Lemma grid_NoDup : NoDup grid.
Proof.
  apply NoDup_alt. intros i j c Hi Hj.
  apply grid_lookup_Some in Hi as (row1 & col1 & Hrow1 & Hcol1 & Hi & Hc1).
  apply grid_lookup_Some in Hj as (row2 & col2 & Hrow2 & Hcol2 & Hj & Hc2).
  destruct (grid_point_inj row1 col1 row2 col2) as [-> ->]; try done.
  - by rewrite <- Hc1, <- Hc2.
  - lia.
Qed.

(** X3. Every cell input [fill_array] produces lies in the rectangle it is
    meant to cover: real part in [[-2.0, 0.5]], imaginary part in
    [[-1.5, 1.5]]; rounding never takes a cell outside. *)
Theorem fill_array_in_rectangle (array : list complex) :
  length array = Z.to_nat (ROWS * COLS) ->
  exists array',
    fill_array array = Some array' /\
    Forall (fun c => in_rectangle c = true) array'.
Proof.
  intros Hlen. exists grid. split; [by apply fill_array_grid|].
  apply Forall_lookup. intros n c Hn.
  apply grid_lookup_Some in Hn as (row & col & Hrow & Hcol & _ & ->).
  by apply grid_point_in_rectangle.
Qed.

Lemma fill_array_in_rectangle_witness :
  length grid = Z.to_nat (ROWS * COLS) /\
  exists array',
    fill_array grid = Some array' /\
    Forall (fun c => in_rectangle c = true) array'.
Proof.
  split; [exact grid_length|]. exact (fill_array_in_rectangle grid grid_length).
Defined.

(** X4. In the grid [fill_array] produces the real part strictly increases
    with the column along every row and the imaginary part strictly
    increases with the row down every column; no two positions of the grid
    hold the same cell input. *)
Theorem fill_array_increasing (array : list complex) :
  length array = Z.to_nat (ROWS * COLS) ->
  exists array',
    fill_array array = Some array' /\
    (forall row col1 col2 c1 c2,
       0 <= row < ROWS -> 0 <= col1 < col2 -> col2 < COLS ->
       array' !! Z.to_nat (row * COLS + col1) = Some c1 ->
       array' !! Z.to_nat (row * COLS + col2) = Some c2 ->
       PrimFloat.ltb (creal c1) (creal c2) = true) /\
    (forall col row1 row2 c1 c2,
       0 <= col < COLS -> 0 <= row1 < row2 -> row2 < ROWS ->
       array' !! Z.to_nat (row1 * COLS + col) = Some c1 ->
       array' !! Z.to_nat (row2 * COLS + col) = Some c2 ->
       PrimFloat.ltb (cimag c1) (cimag c2) = true) /\
    NoDup array'.
Proof.
  intros Hlen. exists grid. split; [by apply fill_array_grid|]. split_and!.
  - intros row col1 col2 c1 c2 Hrow Hcol1 Hcol2 Hc1 Hc2.
    rewrite grid_lookup in Hc1 by lia. rewrite grid_lookup in Hc2 by lia.
    apply (inj Some) in Hc1. apply (inj Some) in Hc2. subst c1 c2.
    by apply creal_increases.
  - intros col row1 row2 c1 c2 Hcol Hrow1 Hrow2 Hc1 Hc2.
    rewrite grid_lookup in Hc1 by lia. rewrite grid_lookup in Hc2 by lia.
    apply (inj Some) in Hc1. apply (inj Some) in Hc2. subst c1 c2.
    by apply cimag_increases.
  - apply grid_NoDup.
Qed.

Lemma fill_array_increasing_witness :
  length grid = Z.to_nat (ROWS * COLS) /\
  exists array', fill_array grid = Some array' /\ NoDup array'.
Proof.
  split; [exact grid_length|].
  destruct (fill_array_increasing grid grid_length) as (array' & Hfill & _ & _ & Hnodup).
  exists array'. exact (conj Hfill Hnodup).
Defined.

(** ** [print_chart], bounds and output *)

(** X5. [print_chart] reads the first [ROWS * COLS] elements of the array:
    on an array at least that long it appends the chart to what was printed
    before, on a shorter one it reads past the end of the array and its
    behaviour is undefined. *)
Theorem print_chart_bounds (array : list Z) (out : list ascii) :
  ((Z.to_nat (ROWS * COLS) <= length array)%nat ->
   print_chart array out = Some (out ++ unlines (chart_lines array))) /\
  ((length array < Z.to_nat (ROWS * COLS))%nat ->
   print_chart array out = None).
Proof.
  split.
  - intros Hlen. by apply print_chart_unlines.
  - intros Hlen. destruct (print_chart array out) as [out'|] eqn:Hrun; [|reflexivity].
    apply print_chart_Some_size in Hrun. lia.
Qed.

Lemma print_chart_bounds_witness :
  print_chart [] [] = None.
Proof.
  apply (proj2 (print_chart_bounds [] [])). vm_compute. lia.
Defined.

Lemma unlines_length (n : nat) (lines : list (list ascii)) :
  Forall (fun line => length line = n) lines ->
  length (unlines lines) = (length lines * (n + 1))%nat.
Proof.
  unfold unlines. induction 1 as [|line lines Hline _ IH]; [reflexivity|].
  cbn [fmap list_fmap concat length]. rewrite !length_app, IH, Hline. cbn. lia.
Qed.

(** X6. A call of [print_chart] that returns has kept what was printed
    before it and added exactly [ROWS * (COLS + 1)] characters, [ROWS] of
    them line terminators. *)
Theorem print_chart_appends (array : list Z) (out out' : list ascii) :
  print_chart array out = Some out' ->
  take (length out) out' = out /\
  length out' = (length out + Z.to_nat (ROWS * (COLS + 1)))%nat /\
  count_occ ascii_dec (drop (length out) out') (ascii_of_nat 10)
  = Z.to_nat ROWS.
Proof.
  intros Hrun. pose proof (print_chart_Some_size _ _ _ Hrun) as Hsize.
  rewrite (print_chart_unlines array Hsize) in Hrun.
  apply (inj Some) in Hrun. subst out'.
  split_and!.
  - by rewrite take_app_length.
  - rewrite length_app, (unlines_length (Z.to_nat COLS)).
    + rewrite (chart_lines_length array). unfold ROWS, COLS. lia.
    + eapply Forall_impl; [apply chart_lines_alphabet|]. by intros line [? _].
  - rewrite drop_app_length.
    pose proof (chart_lines_alphabet array) as Hlines.
    rewrite <- (chart_lines_length array).
    induction Hlines as [|line lines [_ Hline] _ IH]; [reflexivity|].
    unfold unlines. cbn [fmap list_fmap concat]. fold (unlines lines).
    rewrite !count_occ_app, IH.
    assert (count_occ ascii_dec line (ascii_of_nat 10) = 0%nat) as ->.
    { clear IH. induction Hline as [|ch line Hch _ IH]; [reflexivity|].
      rewrite count_occ_cons_neq; [exact IH|].
      intros ->. by destruct Hch. }
    reflexivity.
Qed.

Lemma print_chart_appends_witness :
  print_chart (replicate (Z.to_nat (ROWS * COLS)) 0) []
  = Some (unlines (chart_lines (replicate (Z.to_nat (ROWS * COLS)) 0))) /\
  length (unlines (chart_lines (replicate (Z.to_nat (ROWS * COLS)) 0)))
  = (length (@nil ascii) + Z.to_nat (ROWS * (COLS + 1)))%nat.
Proof.
  assert (print_chart (replicate (Z.to_nat (ROWS * COLS)) 0) []
          = Some (unlines (chart_lines (replicate (Z.to_nat (ROWS * COLS)) 0))))
    as Hrun.
  { assert (Z.to_nat (ROWS * COLS)
            <= length (replicate (Z.to_nat (ROWS * COLS)) 0%Z))%nat as Hlen
      by (rewrite length_replicate; apply Nat.le_refl).
    exact (print_chart_unlines _ Hlen []). }
  split; [exact Hrun|].
  exact (proj1 (proj2 (print_chart_appends _ _ _ Hrun))).
Defined.

Lemma unlines_inj (n : nat) (lines lines' : list (list ascii)) :
  Forall (fun line => length line = n) lines ->
  Forall (fun line => length line = n) lines' ->
  unlines lines = unlines lines' -> lines = lines'.
Proof.
  intros Hlines. revert lines'.
  induction Hlines as [|line lines Hline _ IH]; intros lines' Hlines' Heq.
  - destruct Hlines' as [|line' lines' Hline' _]; [reflexivity|].
    apply (f_equal length) in Heq. unfold unlines in Heq.
    cbn [fmap list_fmap concat] in Heq. rewrite !length_app in Heq.
    cbn in Heq. lia.
  - destruct Hlines' as [|line' lines' Hline' Hlines'].
    + apply (f_equal length) in Heq. unfold unlines in Heq.
      cbn [fmap list_fmap concat] in Heq. rewrite !length_app in Heq.
      cbn in Heq. lia.
    + unfold unlines in Heq. cbn [fmap list_fmap concat] in Heq.
      rewrite <- !app_assoc in Heq.
      apply app_inj_1 in Heq as [-> Heq]; [|congruence].
      apply app_inv_head in Heq. f_equal. by apply IH.
Qed.

Lemma glyph_eq (v w : Z) : glyph v = glyph w <-> (v = 0 <-> w = 0).
Proof.
  unfold glyph. do 2 case_bool_decide; split; try done; try lia.
  all: intros H; exfalso; lia.
Qed.

(** X7. The chart shows the zero pattern of the buffer and nothing more:
    two buffers covering the grid print the same chart exactly when they
    have their zeros at the same grid positions. *)
Theorem print_chart_pattern (a b : list Z) :
  (Z.to_nat (ROWS * COLS) <= length a)%nat ->
  (Z.to_nat (ROWS * COLS) <= length b)%nat ->
  print_chart a [] = print_chart b [] <->
  (forall row col, 0 <= row < ROWS -> 0 <= col < COLS ->
     load a (row * COLS + col) = Some 0 <-> load b (row * COLS + col) = Some 0).
Proof.
  intros Ha Hb.
  rewrite (print_chart_unlines a Ha), (print_chart_unlines b Hb). cbn [app].
  assert (forall row col, 0 <= row < ROWS -> 0 <= col < COLS ->
    (load a (row * COLS + col) = Some 0 <-> load b (row * COLS + col) = Some 0)
    <-> glyph (cell a row col) = glyph (cell b row col)) as Hglyph.
  { intros row col Hrow Hcol.
    destruct (cell_in_bounds a Ha row col Hrow Hcol) as [-> _].
    destruct (cell_in_bounds b Hb row col Hrow Hcol) as [-> _].
    rewrite glyph_eq. split; intros H; split; intros H'.
    - assert (Some (cell b row col) = Some 0) as [= ->] by (apply H; by rewrite H').
      reflexivity.
    - assert (Some (cell a row col) = Some 0) as [= ->] by (apply H; by rewrite H').
      reflexivity.
    - injection H' as H'. f_equal. by apply H.
    - injection H' as H'. f_equal. by apply H. }
  split.
  - intros Heq row col Hrow Hcol. apply Hglyph; [done..|].
    apply (inj Some) in Heq.
    apply (unlines_inj (Z.to_nat COLS)) in Heq.
    + pose proof (chart_lines_lookup a Ha row col Hrow Hcol) as Hla.
      pose proof (chart_lines_lookup b Hb row col Hrow Hcol) as Hlb.
      rewrite Heq, Hlb in Hla. by injection Hla.
    + eapply Forall_impl; [apply chart_lines_alphabet|]. by intros line [? _].
    + eapply Forall_impl; [apply chart_lines_alphabet|]. by intros line [? _].
  - intros Hpattern. do 2 f_equal. unfold chart_lines.
    apply list_fmap_ext. intros n row Hn. apply lookup_seqZ in Hn.
    unfold chart_line. apply list_fmap_ext. intros m col Hm.
    apply lookup_seqZ in Hm. apply Hglyph; [lia..|]. apply Hpattern; lia.
Qed.

Lemma print_chart_pattern_witness :
  (Z.to_nat (ROWS * COLS) <= length (replicate (Z.to_nat (ROWS * COLS)) 1%Z))%nat /\
  (Z.to_nat (ROWS * COLS) <= length (replicate (Z.to_nat (ROWS * COLS)) 2%Z))%nat /\
  print_chart (replicate (Z.to_nat (ROWS * COLS)) 1) []
  = print_chart (replicate (Z.to_nat (ROWS * COLS)) 2) [].
Proof.
  assert (forall v : Z,
    (Z.to_nat (ROWS * COLS) <= length (replicate (Z.to_nat (ROWS * COLS)) v))%nat)
    as Hlen by (intros v; rewrite length_replicate; apply Nat.le_refl).
  split; [exact (Hlen 1)|]. split; [exact (Hlen 2)|].
  apply (proj2 (print_chart_pattern _ _ (Hlen 1) (Hlen 2))).
  intros row col Hrow Hcol.
  destruct (cell_in_bounds _ (Hlen 1) row col Hrow Hcol) as [_ H1].
  destruct (cell_in_bounds _ (Hlen 2) row col Hrow Hcol) as [_ H2].
  apply lookup_replicate in H1 as [H1 _]. apply lookup_replicate in H2 as [H2 _].
  destruct (cell_in_bounds _ (Hlen 1) row col Hrow Hcol) as [-> _].
  destruct (cell_in_bounds _ (Hlen 2) row col Hrow Hcol) as [-> _].
  rewrite H1, H2. split; intros H; discriminate H.
Defined.

(** ** Binary64 words *)

Lemma digits2_pos_bounds (m : positive) :
  2 ^ (Z.pos (digits2_pos m) - 1) <= Z.pos m < 2 ^ Z.pos (digits2_pos m).
Proof.
  induction m as [m IH|m IH|]; cbn [digits2_pos].
  - rewrite Pos2Z.inj_succ. replace (Z.succ (Z.pos (digits2_pos m)) - 1) with (Z.succ (Z.pos (digits2_pos m) - 1)) by lia.
    rewrite !Z.pow_succ_r by lia. lia.
  - rewrite Pos2Z.inj_succ. replace (Z.succ (Z.pos (digits2_pos m)) - 1) with (Z.succ (Z.pos (digits2_pos m) - 1)) by lia.
    rewrite !Z.pow_succ_r by lia. lia.
  - cbn. lia.
Qed.

(** What validity says of a finite [double]: subnormal or normal. *)
Lemma valid_finite (s : bool) (m : positive) (e : Z) :
  valid_binary (S754_finite s m e) = true ->
  (Z.pos m < 2 ^ 52 /\ e = -1074) \/
  (2 ^ 52 <= Z.pos m < 2 ^ 53 /\ -1074 <= e <= 971).
Proof.
  unfold valid_binary, SpecFloat.valid_binary, bounded, canonical_mantissa, fexp, emin, prec, emax.
  intros H. apply andb_prop in H as [H1 H2].
  apply Z.eqb_eq in H1. apply Z.leb_le in H2.
  pose proof (digits2_pos_bounds m) as [Hlo Hhi].
  destruct (Z.max_spec (Z.pos (digits2_pos m) + e - 53) (3 - 1024 - 53)) as [[Hlt Hmax]|[Hle Hmax]];
    rewrite Hmax in H1.
  - left. split; [|lia].
    eapply Z.lt_le_trans; [exact Hhi|]. apply Z.pow_le_mono_r; lia.
  - assert (Z.pos (digits2_pos m) = 53) as Hd by lia. rewrite Hd in *.
    right. change (53 - 1) with 52 in Hlo. lia.
Qed.

Lemma bits_of_double_spec (x : float) : bits_of_double x = bits_of_spec (Prim2SF x).
Proof. reflexivity. Qed.

Lemma double_of_bits_spec (b : Z) : double_of_bits b = SF2Prim (spec_of_bits b).
Proof. reflexivity. Qed.

(** The three fields of a binary64 word. *)
Lemma fields (s : bool) (e f : Z) :
  0 <= e < 2048 -> 0 <= f < 2 ^ 52 ->
  let b := sign_bit s + e * 2 ^ 52 + f in
  Z.testbit b 63 = s /\
  Z.land (Z.shiftr b 52) 2047 = e /\
  Z.land b (2 ^ 52 - 1) = f.
Proof.
  intros He Hf b.
  change 2047 with (Z.ones 11). change (2 ^ 52 - 1) with (Z.ones 52).
  rewrite !Z.land_ones, Z.shiftr_div_pow2, Z.testbit_odd, Z.shiftr_div_pow2 by lia.
  assert (b / 2 ^ 63 = if s then 1 else 0) as ->.
  { subst b. unfold sign_bit. destruct s; symmetry; apply (Z.div_unique _ _ _ (e * 2 ^ 52 + f)); lia. }
  assert (b / 2 ^ 52 = (if s then 2048 else 0) + e) as ->.
  { subst b. unfold sign_bit. destruct s; symmetry; apply (Z.div_unique _ _ _ f); lia. }
  split_and!.
  - by destruct s.
  - symmetry. apply (Z.mod_unique _ _ (if s then 1 else 0)); [lia|destruct s; lia].
  - symmetry. subst b. unfold sign_bit.
    apply (Z.mod_unique _ _ ((if s then 2048 else 0) + e)); [lia|destruct s; lia].
Qed.

Lemma bits_of_spec_range (x : spec_float) :
  valid_binary x = true -> 0 <= bits_of_spec x < 2 ^ 64.
Proof.
  destruct x as [s|s| |s m e]; intros Hvalid; cbn [bits_of_spec]; unfold sign_bit.
  - destruct s; lia.
  - destruct s; lia.
  - lia.
  - destruct (valid_finite s m e Hvalid) as [[Hm ->]|[Hm He]];
      destruct (Z.ltb_spec (Z.pos m) (2 ^ 52)); destruct s; lia.
Qed.

Lemma spec_of_bits_of_spec (x : spec_float) :
  valid_binary x = true -> spec_of_bits (bits_of_spec x) = x.
Proof.
  destruct x as [s|s| |s m e]; intros Hvalid.
  - destruct s; reflexivity.
  - destruct s; reflexivity.
  - reflexivity.
  - cbn [bits_of_spec]. unfold spec_of_bits.
    destruct (valid_finite s m e Hvalid) as [[Hm ->]|[Hm He]].
    + destruct (Z.ltb_spec (Z.pos m) (2 ^ 52)) as [_|]; [|lia].
      destruct (fields s 0 (Z.pos m)) as (Hs & Hexp & Hfrac); [lia..|].
      cbn zeta in *. rewrite Z.mul_0_l, Z.add_0_r in Hs, Hexp, Hfrac.
      rewrite Hs, Hexp, Hfrac. cbn [Z.eqb]. by rewrite Pos2Z.id.
    + destruct (Z.ltb_spec (Z.pos m) (2 ^ 52)) as [|_]; [lia|].
      destruct (fields s (e + 1075) (Z.pos m - 2 ^ 52)) as (Hs & Hexp & Hfrac); [lia..|].
      cbn zeta in *. rewrite Hs, Hexp, Hfrac.
      destruct (Z.eqb_spec (e + 1075) 0); [lia|].
      destruct (Z.eqb_spec (e + 1075) 2047); [lia|].
      replace (Z.pos m - 2 ^ 52 + 2 ^ 52) with (Z.pos m) by lia.
      replace (e + 1075 - 1075) with e by lia. by rewrite Pos2Z.id.
Qed.

Lemma double_of_bits_of_double (x : float) : double_of_bits (bits_of_double x) = x.
Proof.
  rewrite double_of_bits_spec, bits_of_double_spec.
  rewrite spec_of_bits_of_spec by apply Prim2SF_valid.
  apply SF2Prim_Prim2SF.
Qed.

(** ** Values through their bytes *)

Lemma le_value_le_bytes_8 (b : Z) (rest : list byte) :
  0 <= b < 2 ^ 64 -> le_value (take 8 (le_bytes 8 b ++ rest)) = b.
Proof.
  intros Hb. rewrite take_app_length' by (by rewrite le_bytes_length).
  rewrite le_value_le_bytes. change (256 ^ Z.of_nat 8) with (2 ^ 64).
  apply Z.mod_small. exact Hb.
Qed.

Lemma double_of_bytes_of_double (x : float) (rest : list byte) :
  double_of_bytes (bytes_of_double x ++ rest) = x.
Proof.
  unfold double_of_bytes, bytes_of_double.
  rewrite le_value_le_bytes_8.
  - apply double_of_bits_of_double.
  - rewrite bits_of_double_spec. apply bits_of_spec_range, Prim2SF_valid.
Qed.

Lemma complex_of_bytes_of_complex (c : complex) :
  complex_of_bytes (bytes_of_complex c) = c.
Proof.
  unfold complex_of_bytes, bytes_of_complex.
  rewrite double_of_bytes_of_double.
  rewrite drop_app_length' by (unfold bytes_of_double; by rewrite le_bytes_length).
  rewrite <- (app_nil_r (bytes_of_double (cimag c))).
  rewrite double_of_bytes_of_double. by destruct c.
Qed.

(** ** The kernel, as it was meant and as it may run *)

(** One call that passes both pointers is defined, and leaves in the two
    locals the cell input and the index as [main] packed them. *)
Lemma unpack_args_both_pointers (c : complex) (i : Z) :
  - 2 ^ 31 <= i < 2 ^ 31 ->
  exists c' i',
    starpu_codelet_unpack_args [bytes_of_complex c; bytes_of_int i]
      [Some sizeof_double_complex; Some sizeof_int]
    = Some [c'; i'] /\
    (object_bytes sizeof_double_complex c' ≫= (fun b => Some (complex_of_bytes b)))
    = Some c /\
    (object_bytes sizeof_int i' ≫= (fun b => Some (int_of_bytes b))) = Some i.
Proof.
  intros Hi. exists (bytes_of_complex c), (bytes_of_int i). split_and!.
  - cbn [starpu_codelet_unpack_args].
    rewrite bytes_of_complex_length. unfold bytes_of_int.
    by rewrite le_bytes_length.
  - unfold object_bytes. rewrite bytes_of_complex_length, Nat.eqb_refl.
    cbn [mbind option_bind]. by rewrite complex_of_bytes_of_complex.
  - unfold object_bytes, bytes_of_int at 1. rewrite le_bytes_length, Nat.eqb_refl.
    cbn [mbind option_bind]. by rewrite int_of_bytes_of_int.
Qed.

(** On a layout where [i] lies directly below [c], the second call of
    [cpu_func] leaves [c] clobbered. For the unit of index 3199 (row 31,
    column 99: [c = 0.5 + 0i]) the predicate then changes its answer. *)
Lemma clobbered_unit_3199 :
  grid_point 31 99 = Complex 0.5%float 0%float /\
  is_stable cabs_sqrt (grid_point 31 99) ITER = 0 /\
  is_stable cabs_sqrt (clobbered (grid_point 31 99)) ITER = 1.
Proof. split_and!; vm_compute; reflexivity. Qed.

(** ** The predicate, without iteration *)

(** X8. With a bound that is zero or negative the loop of [is_stable] does
    not run: the answer does not depend on [c], it is the verdict on the
    magnitude of zero. *)
Theorem is_stable_no_iteration (cabs : complex -> float) (c : complex) (k : Z) :
  k <= 0 ->
  is_stable cabs c k = if PrimFloat.leb (cabs czero) 2%float then 1 else 0.
Proof.
  intros Hk. rewrite is_stable_unfold.
  by replace (Z.to_nat k) with 0%nat by lia.
Qed.

Lemma is_stable_no_iteration_witness :
  -1 <= 0 /\
  is_stable cabs_sqrt (Complex 3 4) (-1)
  = if PrimFloat.leb (cabs_sqrt czero) 2%float then 1 else 0.
Proof.
  assert (-1 <= 0) as Hk by lia.
  split; [exact Hk|]. exact (is_stable_no_iteration cabs_sqrt (Complex 3 4) (-1) Hk).
Defined.

(** ** The process *)

Lemma main_fill_array (cabs : complex -> float)
    (task_runtime : list starpu_task -> list Z -> ub (list Z))
    (matrix matrix' : list complex) (malloc_mask : option (list Z)) :
  fill_array matrix = fill_array matrix' ->
  main cabs task_runtime (Some matrix) malloc_mask
  = main cabs task_runtime (Some matrix') malloc_mask.
Proof.
  intros Hfill. unfold main.
  destruct malloc_mask as [mask|]; [|reflexivity].
  rewrite Hfill. reflexivity.
Qed.

(** X11. What [main] does is independent of what the block allocated for
    the grid holds when [malloc] returns it: [fill_array] overwrites all of
    it before anything is read. *)
Theorem main_forgets_matrix (cabs : complex -> float)
    (task_runtime : list starpu_task -> list Z -> ub (list Z))
    (matrix matrix' : list complex) (malloc_mask : option (list Z)) :
  length matrix = Z.to_nat (ROWS * COLS) ->
  length matrix' = Z.to_nat (ROWS * COLS) ->
  main cabs task_runtime (Some matrix) malloc_mask
  = main cabs task_runtime (Some matrix') malloc_mask.
Proof.
  intros Hmatrix Hmatrix'. apply main_fill_array.
  rewrite (fill_array_grid matrix Hmatrix).
  symmetry. exact (fill_array_grid matrix' Hmatrix').
Qed.

Lemma main_forgets_matrix_witness :
  length grid = Z.to_nat (ROWS * COLS) /\
  length (replicate (Z.to_nat (ROWS * COLS)) czero) = Z.to_nat (ROWS * COLS) /\
  main cabs_sqrt run_in_order (Some grid) None
  = main cabs_sqrt run_in_order
      (Some (replicate (Z.to_nat (ROWS * COLS)) czero)) None.
Proof.
  split; [exact grid_length|]. split; [apply length_replicate|].
  exact (main_forgets_matrix cabs_sqrt run_in_order _ _ None grid_length
           (length_replicate _ _)).
Defined.
